(** * go-cache: a read-through cache in front of one Adapter

    Shallow embedding of [cache.go].  Go pointers to [Item] are locations
    of an explicit heap, because [Set] stamps the expiration through the
    pointer it is given: the caller's item, the stored item and the item
    the adapter handed out are one object when they are one pointer.

    Embedded are [Item.Expired], [simpleCache] and [coalescedCache], each
    as one caller at a time runs it; [concurrentCache] and [lockedCache]
    repeat the code of [simpleCache] over a [sync.Map].  Every reading of
    [time.Now()] is an argument of the function that takes it. *)

From stdpp Require Import gmap strings.

Open Scope Z_scope.

(** ** Time

    A [time.Time] is an instant on the integer line (nanoseconds); the
    zero value of the type is instant [0].  A [time.Duration] is a
    signed number of nanoseconds. *)

Abbreviation Time := Z (only parsing).
Abbreviation Duration := Z (only parsing).

Definition IsZero (t : Time) : bool := t =? 0.
Definition Before (t u : Time) : bool := t <? u.
Definition Add (t : Time) (d : Duration) : Time := t + d.

(** ** Values

    [interface{}] values as far as the cache can tell them apart: the nil
    interface, a [*Item] (which may be the nil pointer), or a value of
    some other dynamic type. *)

Abbreviation loc := positive (only parsing).

Inductive any : Type :=
  | nil_any
  | str_any (s : string)
  | int_any (n : Z)
  | ptr_any (p : option loc).

(** Go's [error]: [None] is the nil error. *)
Abbreviation error := (option string) (only parsing).

(** type Item struct { Value interface{}; Expiration time.Time } *)
Record Item : Type := mkItem { Value : any; Expiration : Time }.

(** func (me *Item) Expired(now time.Time) bool, on the pointed-to item. *)
Definition Expired (me : Item) (now : Time) : bool :=
  if IsZero (Expiration me) then false
  else Before (Expiration me) now.

(** Run-time panics the code can raise. [BadPointer] is a dereference of
    a location the heap does not hold; Go's collector rules it out, the
    model has to give it a meaning. *)
Inductive panic : Type :=
  | TypeAssertion
  | NilDereference
  | BadPointer.

(** ** State

    The cache handle together with what it points into.  [ttl] and
    [entries] are the struct's fields ([entries] is a Go map in
    [simpleCache] and a [sync.Map] in the other variants), [store] is the
    state of the adapter held in the field of that name, [heap] holds the
    items, and [queried] logs the keys [Query] was called with, oldest
    first. *)
Record state (A : Type) : Type := mkState {
  ttl : Duration;
  entries : gmap string any;
  heap : gmap loc Item;
  store : A;
  queried : list string
}.
Arguments mkState {A} _ _ _ _ _.
Arguments ttl {A} _.
Arguments entries {A} _.
Arguments heap {A} _.
Arguments store {A} _.
Arguments queried {A} _.

(** A call either returns, or panics; both leave a state behind. *)
Inductive result (A R : Type) : Type :=
  | Ret (r : R) (s : state A)
  | Panic (p : panic) (s : state A).
Arguments Ret {A R} r s.
Arguments Panic {A R} p s.

Definition bind {A R T : Type} (m : state A -> result A R)
    (k : R -> state A -> result A T) (s : state A) : result A T :=
  match m s with
  | Ret r s' => k r s'
  | Panic p s' => Panic p s'
  end.

Notation "x <- m ;; k" := (bind m (fun x => k))
  (at level 100, m at next level, right associativity).

(** The adapter behind the cache: [Query] may read and change its own
    state and the heap of items, and answers with a value and an error. *)
Abbreviation Adapter A :=
  (string -> A -> gmap loc Item -> any * error * A * gmap loc Item)
  (only parsing).

Section Primitives.

Context {A : Type}.

(** value.( *Item ) *)
Definition assertItem (value : any) (s : state A) : result A (option loc) :=
  match value with
  | ptr_any p => Ret p s
  | _ => Panic TypeAssertion s
  end.

(** Reading a field through a [*Item]. *)
Definition load (item : option loc) (s : state A) : result A Item :=
  match item with
  | None => Panic NilDereference s
  | Some l =>
      match heap s !! l with
      | Some it => Ret it s
      | None => Panic BadPointer s
      end
  end.

(** item.Expiration = t *)
Definition storeExpiration (item : option loc) (t : Time) (s : state A)
    : result A unit :=
  match item with
  | None => Panic NilDereference s
  | Some l =>
      match heap s !! l with
      | Some it =>
          Ret tt (mkState (ttl s) (entries s)
                    (<[l := mkItem (Value it) t]> (heap s))
                    (store s) (queried s))
      | None => Panic BadPointer s
      end
  end.

(** me.entries[key] = item, or me.entries.Store(key, item) *)
Definition storeEntry (key : string) (item : option loc) (s : state A)
    : result A unit :=
  Ret tt (mkState (ttl s) (<[key := ptr_any item]> (entries s))
            (heap s) (store s) (queried s)).

(** me.store.Query(key) *)
Definition callQuery (Query : Adapter A) (key : string) (s : state A)
    : result A (any * error) :=
  let '(value, err, a', h') := Query key (store s) (heap s) in
  Ret (value, err)
      (mkState (ttl s) (entries s) h' a' (queried s ++ [key])).

(** NewSimpleCache and its three siblings: a handle with no entries. *)
Definition New (a : A) (h : gmap loc Item) (d : Duration) : state A :=
  mkState d ∅ h a [].

End Primitives.

(** ** The unsynchronized cache *)

Module simpleCache.
Section Methods.

Context {A : Type}.
Variable Query : Adapter A.

(** [now] is the reading of [time.Now()] inside [Set]. *)
Definition Set_ (now : Time) (key : string) (item : option loc)
    (s : state A) : result A unit :=
  if 0 <? ttl s
  then (_ <- storeExpiration item (Add now (ttl s)) ;; storeEntry key item) s
  else storeEntry key item s.

Definition fetchAndStore (now : Time) (key : string) (s : state A)
    : result A (option loc * error) :=
  (r <- callQuery Query key ;;
   match snd r with
   | Some e => Ret (None, Some e)
   | None =>
       item <- assertItem (fst r) ;;
       _ <- Set_ now key item ;;
       Ret (item, None)
   end) s.

(** [now] is the reading of [time.Now()] for the expiry check, [now']
    the later one taken by [Set] when the call fetches. *)
Definition Get (now now' : Time) (key : string) (s : state A)
    : result A (option loc * error) :=
  match entries s !! key with
  | None => fetchAndStore now' key s
  | Some value =>
      (item <- assertItem value ;;
       it <- load item ;;
       if Expired it now then fetchAndStore now' key
       else Ret (item, None)) s
  end.

End Methods.
End simpleCache.

(** ** The coalescing cache *)

Module singleflight.

(** [Group.Do] of golang.org/x/sync/singleflight, as a caller sees it
    when no call for the key is in flight: it runs [fn] itself and gets
    [fn]'s results back, not shared.  A panic of [fn] comes out of [Do]
    as a panic; the library wraps the panic value on the way, and that
    wrapper is not modelled. *)
Definition Do {A : Type} (key : string)
    (fn : state A -> result A (any * error)) (s : state A)
    : result A (any * error * bool) :=
  (r <- fn ;; Ret (r, false)) s.

End singleflight.

Module coalescedCache.
Section Methods.

Context {A : Type}.
Variable Query : Adapter A.

Definition Set_ (now : Time) (key : string) (item : option loc)
    (s : state A) : result A unit :=
  if 0 <? ttl s
  then (_ <- storeExpiration item (Add now (ttl s)) ;; storeEntry key item) s
  else storeEntry key item s.

Definition fetchAndStore (now : Time) (key : string) (s : state A)
    : result A (option loc * error) :=
  (r <- callQuery Query key ;;
   match snd r with
   | Some e => Ret (None, Some e)
   | None =>
       item <- assertItem (fst r) ;;
       _ <- Set_ now key item ;;
       Ret (item, None)
   end) s.

(** The function literal handed to [Do]: its [*Item] results travel
    as [interface{}], so the nil pointer of the error path is a typed
    nil, not the nil interface. *)
Definition lookup (now now' : Time) (key : string) (s : state A)
    : result A (any * error) :=
  match entries s !! key with
  | None => (r <- fetchAndStore now' key ;; Ret (ptr_any (fst r), snd r)) s
  | Some item =>
      (p <- assertItem item ;;
       it <- load p ;;
       if Expired it now
       then r <- fetchAndStore now' key ;; Ret (ptr_any (fst r), snd r)
       else Ret (item, None)) s
  end.

Definition Get (now now' : Time) (key : string) (s : state A)
    : result A (option loc * error) :=
  (r <- singleflight.Do key (lookup now now' key) ;;
   p <- assertItem (fst (fst r)) ;;
   Ret (p, snd (fst r))) s.

End Methods.
End coalescedCache.

(** ** When a call goes to the adapter

    [stale s now key] holds when [Get] at time [now] finds no entry for
    [key], or finds one whose item has expired. *)
Definition stale {A : Type} (s : state A) (now : Time) (key : string) : bool :=
  match entries s !! key with
  | None => true
  | Some (ptr_any (Some l)) =>
      match heap s !! l with
      | Some it => Expired it now
      | None => false
      end
  | Some _ => false
  end.

(** The state right after the adapter answered a query for [key]. *)
Definition answered {A : Type} (s : state A) (key : string) (a' : A)
    (h' : gmap loc Item) : state A :=
  mkState (ttl s) (entries s) h' a' (queried s ++ [key]).

(** ** A source that always succeeds *)

Section SourceContract.

Context {A : Type}.
Variable Query : Adapter A.

(** What the adapter relies on about its own state and the heap. *)
Variable sourceInv : A -> gmap loc Item -> Prop.

(** The adapter keeps what it relies on, never drops an item and never
    changes an item's value; and what it relies on does not look at
    expirations, which belong to the cache. *)
Definition well_behaved : Prop :=
  (forall k a h v e a' h',
      sourceInv a h -> Query k a h = (v, e, a', h') ->
      sourceInv a' h'
      /\ forall l it, h !! l = Some it ->
           exists it', h' !! l = Some it' /\ Value it' = Value it)
  /\ (forall a h l it t,
      sourceInv a h -> h !! l = Some it ->
      sourceInv a (<[l := mkItem (Value it) t]> h)).

(** Every query for [key] succeeds with an item of value [v]. *)
Definition always_succeeds (key : string) (v : any) : Prop :=
  forall a h, sourceInv a h ->
    exists l it a' h',
      Query key a h = (ptr_any (Some l), None, a', h')
      /\ h' !! l = Some it /\ Value it = v.

(** States of a handle that was built by [New] and then only used
    through [Get], at any instants. *)
Inductive reachable : state A -> Prop :=
  | reach_New a h d : sourceInv a h -> reachable (New a h d)
  | reach_Get s now now' k r s' :
      reachable s ->
      simpleCache.Get Query now now' k s = Ret r s' ->
      reachable s'.

(** Every stored entry of a key that always succeeds points at an item
    with the source's value. *)
Definition from_source (s : state A) : Prop :=
  sourceInv (store s) (heap s)
  /\ forall k x v, entries s !! k = Some x -> always_succeeds k v ->
       exists l it, x = ptr_any (Some l) /\ heap s !! l = Some it /\ Value it = v.

End SourceContract.

(** ** What the source returned, fetch by fetch *)

Section SourceHistory.

Context {A : Type}.
Variable Query : Adapter A.
Variable sourceInv : A -> gmap loc Item -> Prop.

(** Every query for [key] succeeds with a pointer to an item; the item
    and its value may differ from one query to the next. *)
Definition always_answers (key : string) : Prop :=
  forall a h, sourceInv a h ->
    exists l it a' h',
      Query key a h = (ptr_any (Some l), None, a', h')
      /\ h' !! l = Some it.

(** The value of the item a query for [key] on state [s] hands out, when
    the query succeeds with a pointer to an item. *)
Definition answer (key : string) (s : state A) : option any :=
  match Query key (store s) (heap s) with
  | (ptr_any (Some l), None, _, h') => Value <$> h' !! l
  | _ => None
  end.

(** Notes kept next to a run: per key, the value the adapter returned at
    the latest fetch of that key that handed out an item.  A [Get] at
    [now] on [s] adds a note when it goes to the adapter and the adapter
    answers with an item; any other [Get] leaves the notes. *)
Definition noted (now : Time) (key : string) (s : state A)
    (g : gmap string any) : gmap string any :=
  if stale s now key
  then match answer key s with
       | Some v => <[key := v]> g
       | None => g
       end
  else g.

(** A handle built by [New] and then only used through [Get] calls that
    returned, together with the notes of those calls. *)
Inductive traced : state A -> gmap string any -> Prop :=
  | traced_New a h d : sourceInv a h -> traced (New a h d) ∅
  | traced_Get s g now now' k r s' :
      traced s g ->
      simpleCache.Get Query now now' k s = Ret r s' ->
      traced s' (noted now k s g).

(** Every stored entry of a key that always answers points at an item
    whose value is the one noted for the key. *)
Definition follows (s : state A) (g : gmap string any) : Prop :=
  sourceInv (store s) (heap s)
  /\ forall k x, entries s !! k = Some x -> always_answers k ->
       exists l it,
         x = ptr_any (Some l) /\ heap s !! l = Some it
         /\ g !! k = Some (Value it).

End SourceHistory.

(** ** Adapters and items of the test suite *)

Definition testKey : string := "key".

(** var testElem *Item = &Item{Value: "hey oh"}, allocated at [testElem]. *)
Definition testElem : loc := 1%positive.
Definition testHeap : gmap loc Item := {[ testElem := mkItem (str_any "hey oh") 0 ]}.

(** mockAdapter.EXPECT().Query(testKey).AnyTimes().Return(testElem, nil) *)
Definition mockAdapter : Adapter unit :=
  fun _ a h => (ptr_any (Some testElem), None, a, h).

(** An adapter whose every query fails. *)
Definition failingAdapter : Adapter unit :=
  fun _ a h => (nil_any, Some "unavailable"%string, a, h).

(** An adapter that answers with a plain string instead of a [*Item]. *)
Definition stringAdapter : Adapter unit :=
  fun _ a h => (str_any "hey oh", None, a, h).

(** The adapter of the tests relies on [testElem] being allocated with
    the test value. *)
Definition mockInv (_ : unit) (h : gmap loc Item) : Prop :=
  exists it, h !! testElem = Some it /\ Value it = str_any "hey oh".

(** The handle of the tests after a first [Get] whose [Set] ran at
    instant 6, with a TTL of 1000. *)
Definition afterFirstGet : state unit :=
  mkState 1000 {[ testKey := ptr_any (Some testElem) ]}
    {[ testElem := mkItem (str_any "hey oh") 1006 ]} tt [testKey].

(** An adapter that keeps one item and rewrites it for every query:
    the value becomes the key that was asked for. *)
Definition reusingAdapter : Adapter unit :=
  fun k a h =>
    (ptr_any (Some testElem), None, a,
     <[testElem := mkItem (str_any k) 0]> h).

(** The statement of C7 as written: for a key whose source always
    succeeds with value [v], on a handle used through [Get] only, [Get]
    returns without error an item of value [v]; nothing is asked of how
    the source treats the items it has handed out. *)
Definition always_succeeding_source_value : Prop :=
  forall (Query : Adapter unit) (sourceInv : unit -> gmap loc Item -> Prop)
         (now now' : Time) (key : string) (v : any) (s : state unit),
    always_succeeds Query sourceInv key v ->
    reachable Query sourceInv s ->
    exists l s' it,
      simpleCache.Get Query now now' key s = Ret (Some l, None) s'
      /\ heap s' !! l = Some it /\ Value it = v.

(** The statement of C6 as written: with TTL zero, whatever item the
    adapter returns, the item stored by [fetchAndStore] has the zero
    expiration. *)
Definition zero_ttl_stores_unset_expiration : Prop :=
  forall (Query : Adapter unit) (now : Time) (key : string) (s : state unit)
         (l : loc) (a' : unit) (h' : gmap loc Item) (it : Item),
    ttl s = 0 ->
    Query key (store s) (heap s) = (ptr_any (Some l), None, a', h') ->
    h' !! l = Some it ->
    exists r s' it',
      simpleCache.fetchAndStore Query now key s = Ret r s'
      /\ entries s' !! key = Some (ptr_any (Some l))
      /\ heap s' !! l = Some it'
      /\ Expiration it' = 0.

(** ** The concurrent-map cache *)

Module concurrentCache.
Section Methods.

Context {A : Type}.
Variable Query : Adapter A.

(** [me.entries.Store(key, item)] after the stamp. *)
Definition Set_ (now : Time) (key : string) (item : option loc)
    (s : state A) : result A unit :=
  if 0 <? ttl s
  then (_ <- storeExpiration item (Add now (ttl s)) ;; storeEntry key item) s
  else storeEntry key item s.

Definition fetchAndStore (now : Time) (key : string) (s : state A)
    : result A (option loc * error) :=
  (r <- callQuery Query key ;;
   match snd r with
   | Some e => Ret (None, Some e)
   | None =>
       item <- assertItem (fst r) ;;
       _ <- Set_ now key item ;;
       Ret (item, None)
   end) s.

(** [me.entries.Load(key)] is the lookup in [entries]. *)
Definition Get (now now' : Time) (key : string) (s : state A)
    : result A (option loc * error) :=
  match entries s !! key with
  | None => fetchAndStore now' key s
  | Some value =>
      (item <- assertItem value ;;
       it <- load item ;;
       if Expired it now then fetchAndStore now' key
       else Ret (item, None)) s
  end.

End Methods.
End concurrentCache.

(** ** The locked cache

    Next to the fields of the other variants the handle has [locks], a
    [sync.Map] from keys to [*sync.Mutex].  Only [getLock] writes it, and
    only with mutexes, so the table is typed and the assertion
    [rawLock.( *sync.Mutex )] has no failing case.  [mutexes] holds the
    mutexes allocated so far: [true] is a held mutex. *)
Record lockedState (A : Type) : Type := mkLocked {
  base : state A;
  locks : gmap string loc;
  mutexes : gmap loc bool
}.
Arguments mkLocked {A} _ _ _.
Arguments base {A} _.
Arguments locks {A} _.
Arguments mutexes {A} _.

(** A call on the locked cache returns, panics, waits for a mutex that
    someone else holds, or dies of a fatal error of the runtime. *)
Inductive lockedResult (A R : Type) : Type :=
  | Returned (r : R) (s : lockedState A)
  | Panicked (p : panic) (s : lockedState A)
  | Blocked (s : lockedState A)
  | Fatal (s : lockedState A).
Arguments Returned {A R} r s.
Arguments Panicked {A R} p s.
Arguments Blocked {A R} s.
Arguments Fatal {A R} s.

Module Mutex.
Section Methods.

Context {A : Type}.

(** func (m *Mutex) Lock(): takes a free mutex, waits on a held one. *)
Definition Lock (m : loc) (s : lockedState A) : lockedResult A unit :=
  match mutexes s !! m with
  | Some false => Returned tt (mkLocked (base s) (locks s) (<[m := true]> (mutexes s)))
  | Some true => Blocked s
  | None => Panicked BadPointer s
  end.

(** func (m *Mutex) Unlock(): frees a held mutex; on a free one it is
    the fatal error "sync: unlock of unlocked mutex". *)
Definition Unlock (m : loc) (s : lockedState A) : lockedResult A unit :=
  match mutexes s !! m with
  | Some true => Returned tt (mkLocked (base s) (locks s) (<[m := false]> (mutexes s)))
  | Some false => Fatal s
  | None => Panicked BadPointer s
  end.

End Methods.
End Mutex.

Module lockedCache.
Section Methods.

Context {A : Type}.
Variable Query : Adapter A.

(** [me.locks.LoadOrStore(key, &sync.Mutex{})]: the mutex the table has
    for the key, or else a new free mutex, which the table then keeps.
    The mutex built for a key that already has one is dropped unused and
    is not allocated here. *)
Definition getLock (key : string) (s : lockedState A) : loc * lockedState A :=
  match locks s !! key with
  | Some m => (m, s)
  | None =>
      let m := fresh (dom (mutexes s)) in
      (m, mkLocked (base s) (<[key := m]> (locks s)) (<[m := false]> (mutexes s)))
  end.

Definition Set_ (now : Time) (key : string) (item : option loc)
    (s : state A) : result A unit :=
  if 0 <? ttl s
  then (_ <- storeExpiration item (Add now (ttl s)) ;; storeEntry key item) s
  else storeEntry key item s.

Definition fetchAndStore (now : Time) (key : string) (s : state A)
    : result A (option loc * error) :=
  (r <- callQuery Query key ;;
   match snd r with
   | Some e => Ret (None, Some e)
   | None =>
       item <- assertItem (fst r) ;;
       _ <- Set_ now key item ;;
       Ret (item, None)
   end) s.

(** The statements of [Get] that run with the mutex held; they touch
    the fields the other variants have, not the lock table. *)
Definition getHeld (now now' : Time) (key : string) (s : state A)
    : result A (option loc * error) :=
  match entries s !! key with
  | None => fetchAndStore now' key s
  | Some value =>
      (item <- assertItem value ;;
       it <- load item ;;
       if Expired it now then fetchAndStore now' key
       else Ret (item, None)) s
  end.

(** [defer lock.Unlock()] runs when [Get] returns and when it panics. *)
Definition Get (now now' : Time) (key : string) (s : lockedState A)
    : lockedResult A (option loc * error) :=
  let '(lock, s1) := getLock key s in
  match Mutex.Lock lock s1 with
  | Returned _ s2 =>
      match getHeld now now' key (base s2) with
      | Ret r c =>
          match Mutex.Unlock lock (mkLocked c (locks s2) (mutexes s2)) with
          | Returned _ s3 => Returned r s3
          | Panicked p s3 => Panicked p s3
          | Blocked s3 => Blocked s3
          | Fatal s3 => Fatal s3
          end
      | Panic p c =>
          match Mutex.Unlock lock (mkLocked c (locks s2) (mutexes s2)) with
          | Returned _ s3 => Panicked p s3
          | Panicked q s3 => Panicked q s3
          | Blocked s3 => Blocked s3
          | Fatal s3 => Fatal s3
          end
      end
  | Panicked p s2 => Panicked p s2
  | Blocked s2 => Blocked s2
  | Fatal s2 => Fatal s2
  end.

End Methods.
End lockedCache.

(** NewLockedCache: no entries and no locks. *)
Definition NewLocked {A : Type} (a : A) (h : gmap loc Item) (d : Duration)
    : lockedState A :=
  mkLocked (New a h d) ∅ ∅.

(** ** What a call leaves behind *)

(** The state after a call, returned or panicked. *)
Definition final {A R : Type} (r : result A R) : state A :=
  match r with
  | Ret _ s => s
  | Panic _ s => s
  end.

Definition finalLocked {A R : Type} (r : lockedResult A R) : lockedState A :=
  match r with
  | Returned _ s => s
  | Panicked _ s => s
  | Blocked s => s
  | Fatal s => s
  end.

(** Every mutex of the lock table is allocated and free, and no two keys
    share a mutex: the lock table between two calls of one caller. *)
Definition locks_idle {A : Type} (s : lockedState A) : Prop :=
  (forall k m, locks s !! k = Some m -> mutexes s !! m = Some false)
  /\ (forall k1 k2 m, locks s !! k1 = Some m -> locks s !! k2 = Some m -> k1 = k2).

(** States of a locked handle built by [NewLockedCache] and then used
    through [Get] calls that came back. *)
Inductive reachableLocked {A : Type} (Query : Adapter A) : lockedState A -> Prop :=
  | reachL_New a h d : reachableLocked Query (NewLocked a h d)
  | reachL_Get s now now' k r :
      reachableLocked Query s ->
      lockedCache.Get Query now now' k s = r ->
      (forall s', r <> Blocked s') ->
      reachableLocked Query (finalLocked r).

(** * Properties *)

Section Sequential.

Context {A : Type}.
Variable Query : Adapter A.

(** Called alone, the coalescing [Get] is the unsynchronized one. *)
Lemma coalesced_fetchAndStore :
  coalescedCache.fetchAndStore Query = simpleCache.fetchAndStore Query.
Proof. reflexivity. Qed.

Lemma coalesced_Get_alone now now' key (s : state A) :
  coalescedCache.Get Query now now' key s
  = simpleCache.Get Query now now' key s.
Proof.
  unfold coalescedCache.Get, coalescedCache.lookup, simpleCache.Get,
    singleflight.Do, bind.
  rewrite !coalesced_fetchAndStore.
  destruct (entries s !! key) as [v|] eqn:Hk.
  - destruct v as [| | |p]; simpl; try reflexivity.
    destruct (load p s) as [it s1|q s1]; [|reflexivity].
    destruct (Expired it now); simpl; [|reflexivity].
    destruct (simpleCache.fetchAndStore Query now' key s1)
      as [[p' e'] s2|q s2]; reflexivity.
  - destruct (simpleCache.fetchAndStore Query now' key s)
      as [[p' e'] s2|q s2]; reflexivity.
Qed.

(** A stale key sends [Get] to [fetchAndStore], on the same state. *)
Lemma Get_stale now now' key (s : state A) :
  stale s now key = true ->
  simpleCache.Get Query now now' key s
  = simpleCache.fetchAndStore Query now' key s.
Proof.
  unfold stale, simpleCache.Get, bind.
  destruct (entries s !! key) as [v|]; [|reflexivity].
  destruct v as [| | |[l|]]; try discriminate. simpl.
  destruct (heap s !! l) as [it|]; [|discriminate].
  intros ->. reflexivity.
Qed.

(** A key that is not stale keeps [Get] away from the adapter: the call
    returns the stored pointer, or panics on an entry that holds no
    item, and the state is the one before the call. *)
Lemma Get_not_stale now now' key (s : state A) :
  stale s now key = false ->
  (exists l, simpleCache.Get Query now now' key s = Ret (Some l, None) s)
  \/ (exists p, simpleCache.Get Query now now' key s = Panic p s).
Proof.
  unfold stale, simpleCache.Get, bind, assertItem, load.
  destruct (entries s !! key) as [v|]; [|discriminate].
  destruct v as [| | |[l|]]; try (intros _; right; eexists; reflexivity).
  destruct (heap s !! l) as [it|]; [|intros _; right; eexists; reflexivity].
  intros ->. left. eexists. reflexivity.
Qed.

Lemma fetchAndStore_error now key (s : state A) v e a' h' :
  Query key (store s) (heap s) = (v, Some e, a', h') ->
  simpleCache.fetchAndStore Query now key s
  = Ret (None, Some e) (answered s key a' h').
Proof.
  intros HQ. unfold simpleCache.fetchAndStore, callQuery, bind.
  rewrite HQ. reflexivity.
Qed.

End Sequential.

(** ** Expiration policy *)

(** C2: [Expired] is false on an item whose expiration is the zero
    instant, and otherwise it is exactly [now > Expiration]; so at
    [now = Expiration] the item is not expired. *)
Theorem Expired_strictly_after (it : Item) (now : Time) :
  Expired it now
  = if decide (Expiration it = 0) then false
    else bool_decide (now > Expiration it).
Proof.
  unfold Expired, IsZero, Before.
  destruct (decide (Expiration it = 0)) as [->|Hne]; [reflexivity|].
  destruct (Z.eqb_spec (Expiration it) 0) as [?|_]; [contradiction|].
  destruct (Z.ltb_spec (Expiration it) now).
  - rewrite bool_decide_eq_true_2; [reflexivity|lia].
  - rewrite bool_decide_eq_false_2; [reflexivity|lia].
Qed.

Lemma Expired_at_expiration (v : any) (t : Time) :
  Expired (mkItem v t) t = false.
Proof. rewrite Expired_strictly_after. simpl. case_decide; [done|]. apply bool_decide_eq_false_2. lia. Qed.

(** ** Source failures *)

(** C3: when [Get] goes to the adapter (the key is missing or its item
    has expired) and the query answers with an error, [Get] returns that
    very error, the adapter has been asked once, and [entries] and [ttl]
    are what they were; the heap and the adapter are as the query left
    them.  The same holds for the coalescing variant called alone. *)
Theorem Get_source_error_propagated {A : Type} (Query : Adapter A)
    (now now' : Time) (key : string) (s : state A)
    (v : any) (e : string) (a' : A) (h' : gmap loc Item) :
  stale s now key = true ->
  Query key (store s) (heap s) = (v, Some e, a', h') ->
  simpleCache.Get Query now now' key s
  = Ret (None, Some e) (mkState (ttl s) (entries s) h' a' (queried s ++ [key]))
  /\ coalescedCache.Get Query now now' key s
  = Ret (None, Some e) (mkState (ttl s) (entries s) h' a' (queried s ++ [key])).
Proof.
  intros Hst HQ. rewrite coalesced_Get_alone, (Get_stale _ _ _ _ _ Hst).
  rewrite (fetchAndStore_error _ _ _ _ _ _ _ _ HQ).
  split; reflexivity.
Qed.

Lemma Get_source_error_propagated_witness :
  simpleCache.Get failingAdapter 5 6 testKey (New tt testHeap 1000)
  = Ret (None, Some "unavailable"%string)
      (mkState 1000 ∅ testHeap tt [testKey]).
Proof.
  destruct (Get_source_error_propagated failingAdapter 5 6 testKey
              (New tt testHeap 1000) nil_any "unavailable" tt testHeap)
    as [H _]; [reflexivity | reflexivity | exact H].
Defined.

(** C4: on such a failed query the entry that [Get] returns next to the
    error is the nil [*Item], in both variants. *)
Theorem Get_source_error_nil_item {A : Type} (Query : Adapter A)
    (now now' : Time) (key : string) (s : state A)
    (v : any) (e : string) (a' : A) (h' : gmap loc Item) :
  stale s now key = true ->
  Query key (store s) (heap s) = (v, Some e, a', h') ->
  (exists s', simpleCache.Get Query now now' key s = Ret (None, Some e) s')
  /\ (exists s', coalescedCache.Get Query now now' key s = Ret (None, Some e) s').
Proof.
  intros Hst HQ. rewrite coalesced_Get_alone, (Get_stale _ _ _ _ _ Hst).
  rewrite (fetchAndStore_error _ _ _ _ _ _ _ _ HQ).
  split; eexists; reflexivity.
Qed.

Lemma Get_source_error_nil_item_witness :
  exists s',
    coalescedCache.Get failingAdapter 5 6 testKey (New tt testHeap 1000)
    = Ret (None, Some "unavailable"%string) s'.
Proof.
  destruct (Get_source_error_nil_item failingAdapter 5 6 testKey
              (New tt testHeap 1000) nil_any "unavailable" tt testHeap)
    as [_ H]; [reflexivity | reflexivity | exact H].
Defined.

(** ** Set *)

Lemma Set_positive_ttl {A : Type} (now : Time) (key : string) (l : loc)
    (it : Item) (s : state A) :
  0 < ttl s ->
  heap s !! l = Some it ->
  simpleCache.Set_ now key (Some l) s
  = Ret tt (mkState (ttl s) (<[key := ptr_any (Some l)]> (entries s))
              (<[l := mkItem (Value it) (now + ttl s)]> (heap s))
              (store s) (queried s)).
Proof.
  intros Httl Hl. unfold simpleCache.Set_, bind, storeExpiration, storeEntry, Add.
  destruct (Z.ltb_spec 0 (ttl s)) as [_|?]; [|lia].
  rewrite Hl. reflexivity.
Qed.

Lemma Set_no_ttl {A : Type} (now : Time) (key : string) (item : option loc)
    (s : state A) :
  ttl s <= 0 ->
  simpleCache.Set_ now key item s
  = Ret tt (mkState (ttl s) (<[key := ptr_any item]> (entries s))
              (heap s) (store s) (queried s)).
Proof.
  intros Httl. unfold simpleCache.Set_, storeEntry.
  destruct (Z.ltb_spec 0 (ttl s)) as [?|_]; [lia|reflexivity].
Qed.

(** C5: with a positive TTL, [Set] of an item stores its pointer under
    the key and leaves the item with the caller's value and with
    expiration [now + ttl], whatever expiration it came with; other keys
    and other items are untouched. *)
Theorem Set_stamps_expiration {A : Type} (now : Time) (key : string)
    (l : loc) (it : Item) (s : state A) :
  0 < ttl s ->
  heap s !! l = Some it ->
  exists s',
    simpleCache.Set_ now key (Some l) s = Ret tt s'
    /\ entries s' !! key = Some (ptr_any (Some l))
    /\ heap s' !! l = Some (mkItem (Value it) (now + ttl s))
    /\ (forall k, k <> key -> entries s' !! k = entries s !! k)
    /\ (forall l', l' <> l -> heap s' !! l' = heap s !! l')
    /\ ttl s' = ttl s /\ store s' = store s /\ queried s' = queried s.
Proof.
  intros Httl Hl. eexists. split; [apply Set_positive_ttl; eassumption|].
  simpl. repeat split.
  - apply lookup_insert_eq.
  - apply lookup_insert_eq.
  - intros k Hk. apply lookup_insert_ne. congruence.
  - intros l' Hl'. apply lookup_insert_ne. congruence.
Qed.

Lemma Set_stamps_expiration_witness :
  exists s',
    simpleCache.Set_ 100 testKey (Some testElem)
      (New tt {[ testElem := mkItem (str_any "hey oh") 7 ]} 1000) = Ret tt s'
    /\ entries s' !! testKey = Some (ptr_any (Some testElem))
    /\ heap s' !! testElem = Some (mkItem (str_any "hey oh") 1100).
Proof.
  destruct (Set_stamps_expiration 100 testKey testElem
              (mkItem (str_any "hey oh") 7)
              (New tt {[ testElem := mkItem (str_any "hey oh") 7 ]} 1000))
    as (s' & H1 & H2 & H3 & _); [simpl; lia | reflexivity |].
  exists s'. repeat split; assumption.
Defined.

(** C9: once a first [Set] has returned, a second [Set] of the same
    key and item returns too and ends in the state a single [Set] at
    the later time gives.  Against the state after the first call,
    [entries], the values of all items and everything but expirations
    are the same; with a positive TTL the item's expiration is the later
    [now + ttl], and without one nothing changes at all. *)
Theorem Set_twice_as_once {A : Type} (now1 now2 : Time) (key : string)
    (item : option loc) (s s1 : state A) :
  simpleCache.Set_ now1 key item s = Ret tt s1 ->
  exists s2,
    simpleCache.Set_ now2 key item s1 = Ret tt s2
    /\ simpleCache.Set_ now2 key item s = Ret tt s2
    /\ entries s2 = entries s1
    /\ Value <$> heap s2 = Value <$> heap s1
    /\ ttl s2 = ttl s1 /\ store s2 = store s1 /\ queried s2 = queried s1
    /\ (forall l, 0 < ttl s -> item = Some l ->
          Expiration <$> heap s2 !! l = Some (now2 + ttl s))
    /\ (ttl s <= 0 -> s2 = s1).
Proof.
  intros H1. destruct (Z.lt_ge_cases 0 (ttl s)) as [Hpos|Hnon].
  - destruct item as [l|].
    + destruct (heap s !! l) as [it|] eqn:Hl.
      * rewrite (Set_positive_ttl _ _ _ _ _ Hpos Hl) in H1.
        injection H1 as <-.
        eexists. split; [|split].
        { erewrite Set_positive_ttl; [reflexivity|exact Hpos|apply lookup_insert_eq]. }
        { rewrite (Set_positive_ttl _ _ _ _ _ Hpos Hl). simpl.
          rewrite !insert_insert_eq. reflexivity. }
        simpl. rewrite !insert_insert_eq.
        repeat split; try reflexivity.
        { rewrite !fmap_insert. reflexivity. }
        { intros l0 _ [= <-]. rewrite lookup_insert_eq. reflexivity. }
        { intros; lia. }
      * unfold simpleCache.Set_, bind, storeExpiration in H1.
        destruct (Z.ltb_spec 0 (ttl s)); [|lia]. rewrite Hl in H1. discriminate.
    + unfold simpleCache.Set_, bind, storeExpiration in H1.
      destruct (Z.ltb_spec 0 (ttl s)); [|lia]. discriminate.
  - rewrite (Set_no_ttl _ _ _ _ Hnon) in H1. injection H1 as <-.
    eexists. split; [|split].
    { apply Set_no_ttl. exact Hnon. }
    { rewrite (Set_no_ttl _ _ _ _ Hnon). simpl.
      rewrite insert_insert_eq. reflexivity. }
    simpl. rewrite insert_insert_eq.
    repeat split; try reflexivity. intros; lia.
Qed.

Lemma Set_twice_as_once_witness :
  exists s2,
    simpleCache.Set_ 200 testKey (Some testElem)
      (mkState 1000 {[ testKey := ptr_any (Some testElem) ]}
         {[ testElem := mkItem (str_any "hey oh") 1100 ]} tt []) = Ret tt s2
    /\ simpleCache.Set_ 200 testKey (Some testElem) (New tt testHeap 1000)
       = Ret tt s2.
Proof.
  destruct (Set_twice_as_once 100 200 testKey (Some testElem)
              (New tt testHeap 1000)
              (mkState 1000 {[ testKey := ptr_any (Some testElem) ]}
                 {[ testElem := mkItem (str_any "hey oh") 1100 ]} tt []))
    as (s2 & H1 & H2 & _); [vm_compute; reflexivity|].
  exists s2. split; assumption.
Defined.

(** ** Hits *)

(** C8: when the key is stored and its item has not expired at the time
    of the check, [Get] returns the stored pointer with the nil error
    and the state is the one before the call: no query was logged, and
    [entries] and the heap are unchanged at every key and location. *)
Theorem Get_fresh_hit {A : Type} (Query : Adapter A) (now now' : Time)
    (key : string) (l : loc) (it : Item) (s : state A) :
  entries s !! key = Some (ptr_any (Some l)) ->
  heap s !! l = Some it ->
  Expired it now = false ->
  simpleCache.Get Query now now' key s = Ret (Some l, None) s
  /\ coalescedCache.Get Query now now' key s = Ret (Some l, None) s.
Proof.
  intros Hk Hl Hfresh. rewrite coalesced_Get_alone.
  unfold simpleCache.Get, bind. rewrite Hk. simpl. rewrite Hl, Hfresh.
  split; reflexivity.
Qed.

Lemma Get_fresh_hit_witness :
  simpleCache.Get failingAdapter 1100 1101 testKey
    (mkState 1000 {[ testKey := ptr_any (Some testElem) ]}
       {[ testElem := mkItem (str_any "hey oh") 1100 ]} tt [testKey])
  = Ret (Some testElem, None)
      (mkState 1000 {[ testKey := ptr_any (Some testElem) ]}
         {[ testElem := mkItem (str_any "hey oh") 1100 ]} tt [testKey]).
Proof.
  apply (Get_fresh_hit failingAdapter 1100 1101 testKey testElem
           (mkItem (str_any "hey oh") 1100)); reflexivity.
Defined.

(** ** Fetching *)

Section Fetch.

Context {A : Type}.
Variable Query : Adapter A.

Lemma fetchAndStore_not_item now key (s : state A) v a' h' :
  Query key (store s) (heap s) = (v, None, a', h') ->
  (forall p, v <> ptr_any p) ->
  simpleCache.fetchAndStore Query now key s
  = Panic TypeAssertion (answered s key a' h').
Proof.
  intros HQ Hv. unfold simpleCache.fetchAndStore, callQuery, bind.
  rewrite HQ. simpl. destruct v; try reflexivity. destruct (Hv p eq_refl).
Qed.

Lemma fetchAndStore_no_ttl now key (s : state A) item a' h' :
  ttl s <= 0 ->
  Query key (store s) (heap s) = (ptr_any item, None, a', h') ->
  simpleCache.fetchAndStore Query now key s
  = Ret (item, None)
      (mkState (ttl s) (<[key := ptr_any item]> (entries s)) h' a'
         (queried s ++ [key])).
Proof.
  intros Httl HQ. unfold simpleCache.fetchAndStore, callQuery, bind.
  rewrite HQ. simpl. rewrite Set_no_ttl; [reflexivity|exact Httl].
Qed.

Lemma fetchAndStore_positive_ttl now key (s : state A) l it a' h' :
  0 < ttl s ->
  Query key (store s) (heap s) = (ptr_any (Some l), None, a', h') ->
  h' !! l = Some it ->
  simpleCache.fetchAndStore Query now key s
  = Ret (Some l, None)
      (mkState (ttl s) (<[key := ptr_any (Some l)]> (entries s))
         (<[l := mkItem (Value it) (now + ttl s)]> h') a'
         (queried s ++ [key])).
Proof.
  intros Httl HQ Hl. unfold simpleCache.fetchAndStore, callQuery, bind.
  rewrite HQ. simpl.
  erewrite Set_positive_ttl; [reflexivity|exact Httl|exact Hl].
Qed.

End Fetch.

(** C10: when [Get] goes to the adapter and the query answers, with the
    nil error, a value that is not a [*Item], [Get] panics at the type
    assertion of [fetchAndStore], after the query and before any store;
    no error is returned.  The same holds for the coalescing variant. *)
Theorem Get_panics_on_non_item {A : Type} (Query : Adapter A)
    (now now' : Time) (key : string) (s : state A)
    (v : any) (a' : A) (h' : gmap loc Item) :
  stale s now key = true ->
  Query key (store s) (heap s) = (v, None, a', h') ->
  (forall p, v <> ptr_any p) ->
  simpleCache.Get Query now now' key s
  = Panic TypeAssertion (mkState (ttl s) (entries s) h' a' (queried s ++ [key]))
  /\ coalescedCache.Get Query now now' key s
  = Panic TypeAssertion (mkState (ttl s) (entries s) h' a' (queried s ++ [key])).
Proof.
  intros Hst HQ Hv. rewrite coalesced_Get_alone, (Get_stale _ _ _ _ _ Hst).
  rewrite (fetchAndStore_not_item _ _ _ _ _ _ _ HQ Hv).
  split; reflexivity.
Qed.

Lemma Get_panics_on_non_item_witness :
  simpleCache.Get stringAdapter 5 6 testKey (New tt ∅ 1000)
  = Panic TypeAssertion (mkState 1000 ∅ ∅ tt [testKey]).
Proof.
  destruct (Get_panics_on_non_item stringAdapter 5 6 testKey (New tt ∅ 1000)
              (str_any "hey oh") tt ∅) as [H _];
    [reflexivity | reflexivity | intros p; discriminate | exact H].
Defined.

(** C6, refuted: the adapter of the tests, handing out an item that
    carries expiration 5, on a handle with TTL zero. The stored item
    keeps expiration 5, and is expired from instant 6 on. *)
Lemma zero_ttl_keeps_source_expiration :
  ~ zero_ttl_stores_unset_expiration.
Proof.
  intros H.
  destruct (H mockAdapter 1 testKey
              (New tt {[ testElem := mkItem (str_any "hey oh") 5 ]} 0)
              testElem tt {[ testElem := mkItem (str_any "hey oh") 5 ]}
              (mkItem (str_any "hey oh") 5))
    as (r & s' & it' & Hrun & _ & Hl & Hexp);
    [reflexivity | reflexivity | reflexivity |].
  vm_compute in Hrun. injection Hrun as <- <-.
  vm_compute in Hl. injection Hl as <-. discriminate Hexp.
Qed.

(** C6, amended: with a TTL of zero (or below), [fetchAndStore] on a
    successful query stores the returned pointer and does not write to
    the item: the stored item has the expiration the adapter gave it,
    unset exactly when the adapter left it unset. *)
Theorem zero_ttl_stores_item_as_returned {A : Type} (Query : Adapter A)
    (now : Time) (key : string) (s : state A)
    (l : loc) (a' : A) (h' : gmap loc Item) (it : Item) :
  ttl s <= 0 ->
  Query key (store s) (heap s) = (ptr_any (Some l), None, a', h') ->
  h' !! l = Some it ->
  exists s',
    simpleCache.fetchAndStore Query now key s = Ret (Some l, None) s'
    /\ entries s' !! key = Some (ptr_any (Some l))
    /\ heap s' = h'
    /\ heap s' !! l = Some it
    /\ (forall t, Expired it t = false <-> Expiration it = 0 \/ t <= Expiration it).
Proof.
  intros Httl HQ Hl. eexists.
  split; [apply fetchAndStore_no_ttl; eassumption|]. simpl.
  split; [apply lookup_insert_eq|]. split; [reflexivity|]. split; [exact Hl|].
  intros t. rewrite Expired_strictly_after.
  case_decide; [tauto|]. rewrite bool_decide_eq_false. lia.
Qed.

Lemma zero_ttl_stores_item_as_returned_witness :
  exists s',
    simpleCache.fetchAndStore mockAdapter 1 testKey
      (New tt {[ testElem := mkItem (str_any "hey oh") 5 ]} 0)
    = Ret (Some testElem, None) s'
    /\ heap s' !! testElem = Some (mkItem (str_any "hey oh") 5).
Proof.
  destruct (zero_ttl_stores_item_as_returned mockAdapter 1 testKey
              (New tt {[ testElem := mkItem (str_any "hey oh") 5 ]} 0)
              testElem tt {[ testElem := mkItem (str_any "hey oh") 5 ]}
              (mkItem (str_any "hey oh") 5))
    as (s' & H1 & _ & _ & H2 & _); [simpl; lia | reflexivity | reflexivity |].
  exists s'. split; assumption.
Defined.

(** ** Reads through a source that always succeeds *)

Section AlwaysSucceeds.

Context {A : Type}.
Variable Query : Adapter A.
Variable sourceInv : A -> gmap loc Item -> Prop.

Abbreviation well_behaved := (well_behaved Query sourceInv).
Abbreviation always_succeeds := (always_succeeds Query sourceInv).
Abbreviation reachable := (reachable Query sourceInv).
Abbreviation from_source := (from_source Query sourceInv).

Hypothesis Hwb : well_behaved.

Lemma fetchAndStore_from_source now key (s : state A) r s' :
  from_source s ->
  simpleCache.fetchAndStore Query now key s = Ret r s' ->
  from_source s'.
Proof.
  intros [Hinv Hent] Hrun. destruct Hwb as [Hq Hstamp].
  unfold simpleCache.fetchAndStore, callQuery, bind in Hrun.
  destruct (Query key (store s) (heap s)) as [[[v e] a'] h'] eqn:HQ.
  destruct (Hq _ _ _ _ _ _ _ Hinv HQ) as [Hinv' Hkeep].
  simpl in Hrun. destruct e as [e|].
  - injection Hrun as _ <-. split; [exact Hinv'|]. simpl.
    intros k x v0 Hk Hgood.
    destruct (Hent k x v0 Hk Hgood) as (l & it & -> & Hl & Hv).
    destruct (Hkeep l it Hl) as (it' & Hl' & Hv').
    exists l, it'. repeat split; [exact Hl'|congruence].
  - destruct v as [| | |item]; try discriminate. simpl in Hrun.
    unfold simpleCache.Set_, bind, storeExpiration, storeEntry in Hrun.
    simpl in Hrun.
    destruct (0 <? ttl s) eqn:Httl.
    + destruct item as [l|]; [|discriminate].
      destruct (h' !! l) as [it1|] eqn:Hl1; [|discriminate].
      simpl in Hrun. injection Hrun as _ <-. split; simpl.
      { apply Hstamp; assumption. }
      intros k x v0 Hk Hgood.
      destruct (decide (k = key)) as [->|Hne].
      * rewrite lookup_insert_eq in Hk. injection Hk as <-.
        destruct (Hgood _ _ Hinv) as (l0 & it0 & a0 & h0 & HQ0 & Hl0 & Hv0).
        rewrite HQ in HQ0. injection HQ0 as -> -> ->.
        rewrite Hl1 in Hl0. injection Hl0 as ->.
        eexists _, _. split; [reflexivity|].
        rewrite lookup_insert_eq. split; [reflexivity|exact Hv0].
      * rewrite lookup_insert_ne in Hk by congruence.
        destruct (Hent k x v0 Hk Hgood) as (l2 & it2 & -> & Hl2 & Hv2).
        destruct (Hkeep l2 it2 Hl2) as (it2' & Hl2' & Hv2').
        destruct (decide (l2 = l)) as [->|Hl].
        { exists l, (mkItem (Value it1) (Add now (ttl s))).
          rewrite lookup_insert_eq. repeat split. simpl. congruence. }
        { exists l2, it2'. rewrite lookup_insert_ne by congruence.
          repeat split; [exact Hl2'|congruence]. }
    + simpl in Hrun. injection Hrun as _ <-. split; [exact Hinv'|]. simpl.
      intros k x v0 Hk Hgood.
      destruct (decide (k = key)) as [->|Hne].
      * rewrite lookup_insert_eq in Hk. injection Hk as <-.
        destruct (Hgood _ _ Hinv) as (l0 & it0 & a0 & h0 & HQ0 & Hl0 & Hv0).
        rewrite HQ in HQ0. injection HQ0 as -> -> ->.
        exists l0, it0. repeat split; assumption.
      * rewrite lookup_insert_ne in Hk by congruence.
        destruct (Hent k x v0 Hk Hgood) as (l2 & it2 & -> & Hl2 & Hv2).
        destruct (Hkeep l2 it2 Hl2) as (it2' & Hl2' & Hv2').
        exists l2, it2'. repeat split; [exact Hl2'|congruence].
Qed.

Lemma Get_from_source now now' key (s : state A) r s' :
  from_source s ->
  simpleCache.Get Query now now' key s = Ret r s' ->
  from_source s'.
Proof.
  intros Hs Hrun. unfold simpleCache.Get, bind in Hrun.
  destruct (entries s !! key) as [x|].
  - destruct x as [| | |item]; try discriminate. simpl in Hrun.
    unfold load in Hrun. destruct item as [l|]; [|discriminate].
    destruct (heap s !! l) as [it|]; [|discriminate].
    destruct (Expired it now).
    + eapply fetchAndStore_from_source; eassumption.
    + injection Hrun as _ <-. exact Hs.
  - eapply fetchAndStore_from_source; eassumption.
Qed.

Lemma reachable_from_source (s : state A) :
  reachable s -> from_source s.
Proof.
  induction 1 as [a h d Hinv | s now now' k r s' _ IH Hrun].
  - split; [exact Hinv|]. simpl. intros k x v Hk. rewrite lookup_empty in Hk.
    discriminate.
  - eapply Get_from_source; eassumption.
Qed.

Lemma fetchAndStore_succeeds now key v (s : state A) :
  sourceInv (store s) (heap s) ->
  always_succeeds key v ->
  exists l s' it,
    simpleCache.fetchAndStore Query now key s = Ret (Some l, None) s'
    /\ heap s' !! l = Some it /\ Value it = v.
Proof.
  intros Hinv Hgood.
  destruct (Hgood _ _ Hinv) as (l & it & a' & h' & HQ & Hl & Hv).
  destruct (Z.lt_ge_cases 0 (ttl s)) as [Hpos|Hnon].
  - eexists l, _, _. split; [eapply fetchAndStore_positive_ttl; eassumption|].
    simpl. rewrite lookup_insert_eq. split; [reflexivity|exact Hv].
  - eexists l, _, it. split; [eapply fetchAndStore_no_ttl; eassumption|].
    simpl. split; assumption.
Qed.

Lemma Get_succeeds now now' key v (s : state A) :
  from_source s ->
  always_succeeds key v ->
  exists l s' it,
    simpleCache.Get Query now now' key s = Ret (Some l, None) s'
    /\ heap s' !! l = Some it /\ Value it = v.
Proof.
  intros [Hinv Hent] Hgood. unfold simpleCache.Get, bind.
  destruct (entries s !! key) as [x|] eqn:Hk.
  - destruct (Hent key x v Hk Hgood) as (l & it & -> & Hl & Hv).
    simpl. rewrite Hl. destruct (Expired it now).
    + apply fetchAndStore_succeeds; assumption.
    + exists l, s, it. repeat split; assumption.
  - apply fetchAndStore_succeeds; assumption.
Qed.

End AlwaysSucceeds.

(** The case of a key with one value: for an adapter that is well
    behaved and always answers [key] with an item of value [v], on any
    state reached from a new handle through [Get] calls, [Get key]
    returns a pointer and the nil error, and the item pointed at has
    value [v]; whether the call found a fresh entry or went to the
    adapter.  Both variants. *)
Theorem Get_returns_source_value {A : Type} (Query : Adapter A)
    (sourceInv : A -> gmap loc Item -> Prop)
    (now now' : Time) (key : string) (v : any) (s : state A) :
  well_behaved Query sourceInv ->
  always_succeeds Query sourceInv key v ->
  reachable Query sourceInv s ->
  (exists l s' it,
     simpleCache.Get Query now now' key s = Ret (Some l, None) s'
     /\ heap s' !! l = Some it /\ Value it = v)
  /\ (exists l s' it,
     coalescedCache.Get Query now now' key s = Ret (Some l, None) s'
     /\ heap s' !! l = Some it /\ Value it = v).
Proof.
  intros Hwb Hgood Hreach. rewrite coalesced_Get_alone.
  pose proof (reachable_from_source _ _ Hwb _ Hreach) as Hs.
  split; eapply Get_succeeds; eassumption.
Qed.

Lemma mockAdapter_well_behaved : well_behaved mockAdapter mockInv.
Proof.
  split.
  - intros k a h v e a' h' Hinv [= <- <- <- <-]. split; [exact Hinv|].
    intros l it Hl. exists it. split; [exact Hl|reflexivity].
  - intros a h l it t (it0 & Hl0 & Hv0) Hl.
    destruct (decide (l = testElem)) as [->|Hne].
    + rewrite Hl0 in Hl. injection Hl as <-.
      eexists. rewrite lookup_insert_eq. split; [reflexivity|exact Hv0].
    + exists it0. rewrite lookup_insert_ne by congruence. split; assumption.
Qed.

Lemma mockAdapter_always_succeeds (key : string) :
  always_succeeds mockAdapter mockInv key (str_any "hey oh").
Proof.
  intros a h (it & Hl & Hv). exists testElem, it, a, h.
  repeat split; assumption.
Qed.

Lemma testHeap_mockInv : mockInv tt testHeap.
Proof. eexists. split; reflexivity. Qed.

Lemma Get_returns_source_value_witness :
  exists l s' it,
    simpleCache.Get mockAdapter 7 8 testKey
      (mkState 1000 {[ testKey := ptr_any (Some testElem) ]}
         {[ testElem := mkItem (str_any "hey oh") 1006 ]} tt [testKey])
    = Ret (Some l, None) s'
    /\ heap s' !! l = Some it /\ Value it = str_any "hey oh".
Proof.
  destruct (Get_returns_source_value mockAdapter mockInv 7 8 testKey
              (str_any "hey oh")
              (mkState 1000 {[ testKey := ptr_any (Some testElem) ]}
                 {[ testElem := mkItem (str_any "hey oh") 1006 ]} tt [testKey])
              mockAdapter_well_behaved (mockAdapter_always_succeeds testKey))
    as [H _]; [|exact H].
  apply (reach_Get mockAdapter mockInv (New tt testHeap 1000) 5 6 testKey
           (Some testElem, None)).
  - apply reach_New, testHeap_mockInv.
  - vm_compute. reflexivity.
Defined.

(** ** What a shared item does to the source's value *)

Lemma reusingAdapter_always_succeeds (key : string) :
  always_succeeds reusingAdapter (fun _ _ => True) key (str_any key).
Proof.
  intros a h _.
  exists testElem, (mkItem (str_any key) 0), a,
    (<[testElem := mkItem (str_any key) 0]> h).
  split; [reflexivity|]. split; [apply lookup_insert_eq|reflexivity].
Qed.

(** The handle of TTL 1000 after [Get "a"] and then [Get "b"] against
    the reusing adapter: both keys point at the one item, which now
    carries the value of the second query. *)
Lemma reusingAdapter_reaches :
  reachable reusingAdapter (fun _ _ => True)
    (mkState 1000
       {[ "a"%string := ptr_any (Some testElem);
          "b"%string := ptr_any (Some testElem) ]}
       {[ testElem := mkItem (str_any "b") 1008 ]} tt
       ["a"%string; "b"%string]).
Proof.
  apply (reach_Get reusingAdapter (fun _ _ => True)
           (mkState 1000 {[ "a"%string := ptr_any (Some testElem) ]}
              {[ testElem := mkItem (str_any "a") 1006 ]} tt ["a"%string])
           7 8 "b" (Some testElem, None)).
  - apply (reach_Get reusingAdapter (fun _ _ => True) (New tt ∅ 1000)
             5 6 "a" (Some testElem, None)).
    + apply reach_New. exact I.
    + vm_compute. reflexivity.
  - vm_compute. reflexivity.
Qed.


Section Fetched.

Context {A : Type}.
Variable Query : Adapter A.
Variable sourceInv : A -> gmap loc Item -> Prop.

Abbreviation well_behaved := (well_behaved Query sourceInv).
Abbreviation always_answers := (always_answers Query sourceInv).
Abbreviation follows := (follows Query sourceInv).
Abbreviation traced := (traced Query sourceInv).

Hypothesis Hwb : well_behaved.

Lemma answer_spec key (s : state A) v e a' h' :
  Query key (store s) (heap s) = (v, e, a', h') ->
  answer Query key s
  = match v, e with
    | ptr_any (Some l), None => Value <$> h' !! l
    | _, _ => None
    end.
Proof.
  intros HQ. unfold answer. rewrite HQ.
  destruct v as [| | |[l|]], e; reflexivity.
Qed.

Lemma fetchAndStore_follows now key (s : state A) g r s' :
  follows s g ->
  simpleCache.fetchAndStore Query now key s = Ret r s' ->
  follows s' (match answer Query key s with
              | Some v => <[key := v]> g
              | None => g
              end).
Proof.
  intros [Hinv Hent] Hrun. destruct Hwb as [Hq Hstamp].
  unfold simpleCache.fetchAndStore, callQuery, bind in Hrun.
  destruct (Query key (store s) (heap s)) as [[[v e] a'] h'] eqn:HQ.
  rewrite (answer_spec _ _ _ _ _ _ HQ).
  destruct (Hq _ _ _ _ _ _ _ Hinv HQ) as [Hinv' Hkeep].
  simpl in Hrun. destruct e as [e|].
  - injection Hrun as _ <-.
    replace (match v with ptr_any (Some _) => None | _ => None end)
      with (@None any) by (destruct v as [| | |[l|]]; reflexivity).
    split; [exact Hinv'|]. simpl.
    intros k x Hk Hgood.
    destruct (Hent k x Hk Hgood) as (l & it & -> & Hl & Hg).
    destruct (Hkeep l it Hl) as (it' & Hl' & Hv').
    exists l, it'. repeat split; [exact Hl'|congruence].
  - destruct v as [| | |item]; try discriminate. simpl in Hrun.
    unfold simpleCache.Set_, bind, storeExpiration, storeEntry in Hrun.
    simpl in Hrun.
    destruct (0 <? ttl s) eqn:Httl.
    + destruct item as [l|]; [|discriminate].
      destruct (h' !! l) as [it1|] eqn:Hl1; [|discriminate].
      simpl in Hrun. injection Hrun as _ <-. simpl. split; simpl.
      { apply Hstamp; assumption. }
      intros k x Hk Hgood.
      destruct (decide (k = key)) as [->|Hne].
      * rewrite lookup_insert_eq in Hk. injection Hk as <-.
        eexists _, _. split; [reflexivity|].
        rewrite !lookup_insert_eq. split; reflexivity.
      * rewrite lookup_insert_ne in Hk by congruence.
        destruct (Hent k x Hk Hgood) as (l2 & it2 & -> & Hl2 & Hg2).
        destruct (Hkeep l2 it2 Hl2) as (it2' & Hl2' & Hv2').
        rewrite lookup_insert_ne by congruence.
        destruct (decide (l2 = l)) as [->|Hl].
        { exists l, (mkItem (Value it1) (Add now (ttl s))).
          rewrite lookup_insert_eq. repeat split. simpl. congruence. }
        { exists l2, it2'. rewrite lookup_insert_ne by congruence.
          repeat split; [exact Hl2'|congruence]. }
    + simpl in Hrun. injection Hrun as _ <-. split.
      { destruct item as [l|]; [destruct (h' !! l)|]; exact Hinv'. }
      simpl. intros k x Hk Hgood.
      destruct (decide (k = key)) as [->|Hne].
      * rewrite lookup_insert_eq in Hk. injection Hk as <-.
        destruct (Hgood _ _ Hinv) as (l0 & it0 & a0 & h0 & HQ0 & Hl0).
        rewrite HQ in HQ0. injection HQ0 as -> -> ->.
        rewrite Hl0. simpl. exists l0, it0.
        rewrite lookup_insert_eq. repeat split; assumption.
      * rewrite lookup_insert_ne in Hk by congruence.
        destruct (Hent k x Hk Hgood) as (l2 & it2 & -> & Hl2 & Hg2).
        destruct (Hkeep l2 it2 Hl2) as (it2' & Hl2' & Hv2').
        exists l2, it2'. split; [reflexivity|]. split; [exact Hl2'|].
        rewrite Hv2', <- Hg2.
        destruct item as [l|]; [destruct (h' !! l)|]; simpl;
          rewrite ?lookup_insert_ne by congruence; reflexivity.
Qed.

Lemma Get_follows now now' key (s : state A) g r s' :
  follows s g ->
  simpleCache.Get Query now now' key s = Ret r s' ->
  follows s' (noted Query now key s g).
Proof.
  intros Hs Hrun. unfold noted.
  destruct (stale s now key) eqn:Hst.
  - rewrite (Get_stale _ _ _ _ _ Hst) in Hrun.
    eapply fetchAndStore_follows; eassumption.
  - destruct (Get_not_stale Query now now' key s Hst) as [[l H]|[p H]];
      rewrite H in Hrun; [|discriminate].
    injection Hrun as _ <-. exact Hs.
Qed.

Lemma traced_follows (s : state A) g :
  traced s g -> follows s g.
Proof.
  induction 1 as [a h d Hinv | s g now now' k r s' _ IH Hrun].
  - split; [exact Hinv|]. simpl. intros k x Hk. rewrite lookup_empty in Hk.
    discriminate.
  - eapply Get_follows; eassumption.
Qed.

Lemma Get_fetched_value now now' key (s : state A) g :
  follows s g ->
  always_answers key ->
  exists l s' it,
    simpleCache.Get Query now now' key s = Ret (Some l, None) s'
    /\ heap s' !! l = Some it
    /\ (if stale s now key
        then answer Query key s = Some (Value it)
        else g !! key = Some (Value it)).
Proof.
  intros [Hinv Hent] Hgood. destruct (stale s now key) eqn:Hst.
  - rewrite (Get_stale _ _ _ _ _ Hst).
    destruct (Hgood _ _ Hinv) as (l & it & a' & h' & HQ & Hl).
    rewrite (answer_spec _ _ _ _ _ _ HQ), Hl. simpl.
    destruct (Z.lt_ge_cases 0 (ttl s)) as [Hpos|Hnon].
    + eexists l, _, _. split; [eapply fetchAndStore_positive_ttl; eassumption|].
      simpl. rewrite lookup_insert_eq. split; reflexivity.
    + eexists l, _, it. split; [eapply fetchAndStore_no_ttl; eassumption|].
      simpl. split; [exact Hl|reflexivity].
  - unfold stale in Hst.
    destruct (entries s !! key) as [x|] eqn:Hk; [|discriminate].
    destruct (Hent key x Hk Hgood) as (l0 & it & -> & Hl & Hg).
    rewrite Hl in Hst.
    exists l0, s, it. split; [|split; assumption].
    unfold simpleCache.Get, bind. rewrite Hk. simpl. rewrite Hl, Hst.
    reflexivity.
Qed.

End Fetched.


Lemma mockAdapter_always_answers (key : string) :
  always_answers mockAdapter mockInv key.
Proof.
  intros a h (it & Hl & _). exists testElem, it, a, h.
  split; [reflexivity|exact Hl].
Qed.


(** ** The scenario of the tests

    TTL 1000, the mock adapter, key "key": a first [Get] queries once and
    stores; a second one before the TTL has run out hits and does not
    query; one after it queries again, and stamps the very same item. *)

Example scenario_first_Get :
  simpleCache.Get mockAdapter 5 6 testKey (New tt testHeap 1000)
  = Ret (Some testElem, None) afterFirstGet.
Proof. vm_compute. reflexivity. Qed.

Example scenario_second_Get_hits :
  simpleCache.Get mockAdapter 1006 1007 testKey afterFirstGet
  = Ret (Some testElem, None) afterFirstGet.
Proof. vm_compute. reflexivity. Qed.

Example scenario_Get_after_ttl :
  simpleCache.Get mockAdapter 1007 1008 testKey afterFirstGet
  = Ret (Some testElem, None)
      (mkState 1000 {[ testKey := ptr_any (Some testElem) ]}
         {[ testElem := mkItem (str_any "hey oh") 2008 ]} tt [testKey; testKey]).
Proof. vm_compute. reflexivity. Qed.

Example scenario_coalesced_Get :
  coalescedCache.Get mockAdapter 5 6 testKey (New tt testHeap 1000)
  = Ret (Some testElem, None) afterFirstGet.
Proof. vm_compute. reflexivity. Qed.

(** A typed nil pointer from the adapter passes the type assertion and
    panics in [Set] when the TTL is positive. *)
Example scenario_nil_item_panics :
  simpleCache.Get (fun _ a h => (ptr_any None, None, a, h)) 5 6 testKey
    (New tt ∅ 1000)
  = Panic NilDereference (mkState 1000 ∅ ∅ tt [testKey]).
Proof. vm_compute. reflexivity. Qed.


(** * Further properties of the code *)

(** ** Expiration *)

Lemma Expired_true_iff (it : Item) (now : Time) :
  Expired it now = true <-> Expiration it <> 0 /\ Expiration it < now.
Proof.
  unfold Expired, IsZero, Before.
  destruct (Z.eqb_spec (Expiration it) 0) as [Hz|Hz].
  - split; [discriminate|]. intros [H _]. contradiction.
  - rewrite Z.ltb_lt. tauto.
Qed.

Lemma Expired_false_iff (it : Item) (now : Time) :
  Expired it now = false <-> Expiration it = 0 \/ now <= Expiration it.
Proof.
  rewrite <- not_true_iff_false, Expired_true_iff.
  destruct (decide (Expiration it = 0)); lia.
Qed.

(** X1: an item that has expired stays expired at every later instant. *)
Theorem Expired_monotone (it : Item) (t t' : Time) :
  Expired it t = true -> t <= t' -> Expired it t' = true.
Proof.
  rewrite !Expired_true_iff. intros [Hz Hlt] Hle. split; [exact Hz|lia].
Qed.

Lemma Expired_monotone_witness :
  Expired (mkItem (str_any "hey oh") 1006) 2000 = true.
Proof.
  apply (Expired_monotone (mkItem (str_any "hey oh") 1006) 1007 2000);
    [reflexivity | lia].
Defined.

(** ** What one call changes *)

Section Frames.

Context {A : Type}.
Variable Query : Adapter A.

(** [fetchAndStore] asks the adapter once, whatever happens next, and
    writes [entries] at its own key only. *)
Lemma fetchAndStore_frame now key (s : state A) :
  ttl (final (simpleCache.fetchAndStore Query now key s)) = ttl s
  /\ (forall k, k <> key ->
        entries (final (simpleCache.fetchAndStore Query now key s)) !! k
        = entries s !! k)
  /\ queried (final (simpleCache.fetchAndStore Query now key s))
     = queried s ++ [key].
Proof.
  unfold simpleCache.fetchAndStore, callQuery, bind.
  destruct (Query key (store s) (heap s)) as [[[v e] a'] h']. simpl.
  destruct e as [e|]; [simpl; auto|].
  destruct v as [| | |item]; simpl; auto.
  unfold simpleCache.Set_, bind, storeExpiration, storeEntry. simpl.
  destruct (0 <? ttl s).
  - destruct item as [l|]; simpl; auto.
    destruct (h' !! l) as [it|]; simpl; auto.
    repeat split. intros k Hk. apply lookup_insert_ne. congruence.
  - simpl. repeat split. intros k Hk. apply lookup_insert_ne. congruence.
Qed.

End Frames.

(** X2: whatever the state and however the call ends, [Get] leaves the
    TTL and the entries of all other keys as they were, and either
    leaves the whole state untouched or has asked the adapter exactly
    once, for the requested key. *)
Theorem Get_frame {A : Type} (Query : Adapter A) (now now' : Time)
    (key : string) (s : state A) :
  ttl (final (simpleCache.Get Query now now' key s)) = ttl s
  /\ (forall k, k <> key ->
        entries (final (simpleCache.Get Query now now' key s)) !! k
        = entries s !! k)
  /\ (final (simpleCache.Get Query now now' key s) = s
      \/ queried (final (simpleCache.Get Query now now' key s))
         = queried s ++ [key]).
Proof.
  pose proof (fetchAndStore_frame Query now' key s) as (Ht & He & Hq).
  unfold simpleCache.Get, bind.
  destruct (entries s !! key) as [v|]; [|auto].
  destruct v as [| | |[l|]]; simpl; auto.
  destruct (heap s !! l) as [it|]; simpl; auto.
  destruct (Expired it now); simpl; auto.
Qed.

(** ** Set and Get together *)

(** X3: after [Set] at instant [t] on a handle with a positive TTL,
    a [Get] of the key at any instant up to [t + ttl] returns the
    pointer that was set, with the nil error, and changes nothing; in
    particular the adapter is not asked. *)
Theorem Get_after_Set_hits {A : Type} (Query : Adapter A) (t now now' : Time)
    (key : string) (l : loc) (it : Item) (s : state A) :
  0 < ttl s ->
  heap s !! l = Some it ->
  now <= t + ttl s ->
  exists s1,
    simpleCache.Set_ t key (Some l) s = Ret tt s1
    /\ simpleCache.Get Query now now' key s1 = Ret (Some l, None) s1.
Proof.
  intros Httl Hl Hnow. eexists.
  split; [apply Set_positive_ttl; eassumption|].
  unfold simpleCache.Get, bind. simpl. rewrite lookup_insert_eq. simpl.
  rewrite lookup_insert_eq.
  replace (Expired _ now) with false; [reflexivity|].
  symmetry. apply Expired_false_iff. simpl. lia.
Qed.

Lemma Get_after_Set_hits_witness :
  exists s1,
    simpleCache.Set_ 100 testKey (Some testElem) (New tt testHeap 1000)
    = Ret tt s1
    /\ simpleCache.Get failingAdapter 1100 1101 testKey s1
       = Ret (Some testElem, None) s1.
Proof.
  apply (Get_after_Set_hits failingAdapter 100 1100 1101 testKey testElem
           (mkItem (str_any "hey oh") 0) (New tt testHeap 1000));
    [simpl; lia | reflexivity | simpl; lia].
Defined.

(** X4: after [Set] at instant [t] on a handle with a positive TTL, a
    [Get] of the key at an instant after [t + ttl] goes to the adapter:
    it asks exactly once.  (An expiration that lands on the zero instant
    reads as unset, hence the side condition.) *)
Theorem Get_after_Set_expired {A : Type} (Query : Adapter A)
    (t now now' : Time) (key : string) (l : loc) (it : Item) (s : state A) :
  0 < ttl s ->
  heap s !! l = Some it ->
  t + ttl s <> 0 ->
  t + ttl s < now ->
  exists s1,
    simpleCache.Set_ t key (Some l) s = Ret tt s1
    /\ simpleCache.Get Query now now' key s1
       = simpleCache.fetchAndStore Query now' key s1
    /\ queried (final (simpleCache.Get Query now now' key s1))
       = queried s ++ [key].
Proof.
  intros Httl Hl Hz Hnow. eexists.
  split; [apply Set_positive_ttl; eassumption|].
  match goal with |- ?G = _ /\ _ => assert (Hget : G = simpleCache.fetchAndStore Query now' key
     (mkState (ttl s) (<[key:=ptr_any (Some l)]> (entries s))
        (<[l:=mkItem (Value it) (t + ttl s)]> (heap s)) (store s) (queried s))) end.
  { apply Get_stale. unfold stale. simpl. rewrite !lookup_insert_eq.
    apply Expired_true_iff. simpl. lia. }
  split; [exact Hget|]. rewrite Hget.
  exact (proj2 (proj2 (fetchAndStore_frame _ _ _ _))).
Qed.

Lemma Get_after_Set_expired_witness :
  exists s1,
    simpleCache.Set_ 100 testKey (Some testElem) (New tt testHeap 1000)
    = Ret tt s1
    /\ queried (final (simpleCache.Get failingAdapter 1101 1102 testKey s1))
       = [testKey].
Proof.
  destruct (Get_after_Set_expired failingAdapter 100 1101 1102 testKey testElem
              (mkItem (str_any "hey oh") 0) (New tt testHeap 1000))
    as (s1 & H1 & _ & H2); [simpl; lia | reflexivity | simpl; lia | simpl; lia |].
  exists s1. split; assumption.
Defined.

(** ** Failures are not remembered *)

Lemma stale_monotone {A : Type} (s : state A) (t t' : Time) (key : string) :
  stale s t key = true -> t <= t' -> stale s t' key = true.
Proof.
  unfold stale. destruct (entries s !! key) as [v|]; [|reflexivity].
  destruct v as [| | |[l|]]; try discriminate.
  destruct (heap s !! l) as [it|]; [|discriminate].
  rewrite !Expired_true_iff. intros [Hz Hlt] Hle. split; [exact Hz|lia].
Qed.

(** X5: a failed query is not cached.  When [Get] goes to the adapter,
    the query fails and the adapter leaves the heap alone, the entries
    are what they were (an expired entry stays stored), and a [Get] of
    the key at the same or any later instant asks the adapter again. *)
Theorem failed_Get_asks_again {A : Type} (Query : Adapter A)
    (now now' t t' : Time) (key : string) (s : state A)
    (v : any) (e : string) (a' : A) :
  stale s now key = true ->
  Query key (store s) (heap s) = (v, Some e, a', heap s) ->
  now <= t ->
  exists s1,
    simpleCache.Get Query now now' key s = Ret (None, Some e) s1
    /\ entries s1 = entries s
    /\ queried (final (simpleCache.Get Query t t' key s1))
       = queried s ++ [key; key].
Proof.
  intros Hst HQ Hle. exists (answered s key a' (heap s)).
  split; [|split; [reflexivity|]].
  - rewrite (Get_stale _ _ _ _ _ Hst). apply fetchAndStore_error with v. exact HQ.
  - assert (Hst' : stale (answered s key a' (heap s)) t key = true)
      by (apply (stale_monotone s now t key Hst Hle)).
    rewrite (Get_stale _ _ _ _ _ Hst').
    rewrite (proj2 (proj2 (fetchAndStore_frame _ _ _ _))). simpl.
    rewrite <- app_assoc. reflexivity.
Qed.

Lemma failed_Get_asks_again_witness :
  exists s1,
    simpleCache.Get failingAdapter 5 6 testKey (New tt testHeap 1000)
    = Ret (None, Some "unavailable"%string) s1
    /\ queried (final (simpleCache.Get failingAdapter 7 8 testKey s1))
       = [testKey; testKey].
Proof.
  destruct (failed_Get_asks_again failingAdapter 5 6 7 8 testKey
              (New tt testHeap 1000) nil_any "unavailable" tt)
    as (s1 & H1 & _ & H2); [reflexivity | reflexivity | lia |].
  exists s1. split; assumption.
Defined.

(** ** The life of a fetched entry *)

(** X6: on a handle with a positive TTL, a [Get] that fetches at [now']
    stores an entry that serves every [Get] up to [now' + ttl] without
    asking the adapter and without changing anything; the first [Get]
    after that instant asks the adapter again. *)
Theorem fetched_entry_served_until_ttl {A : Type} (Query : Adapter A)
    (now now' : Time) (key : string) (s : state A)
    (l : loc) (a' : A) (h' : gmap loc Item) (it : Item) :
  0 < ttl s ->
  stale s now key = true ->
  Query key (store s) (heap s) = (ptr_any (Some l), None, a', h') ->
  h' !! l = Some it ->
  exists s1,
    simpleCache.Get Query now now' key s = Ret (Some l, None) s1
    /\ (forall t t', t <= now' + ttl s ->
          simpleCache.Get Query t t' key s1 = Ret (Some l, None) s1)
    /\ (forall t t', now' + ttl s < t -> now' + ttl s <> 0 ->
          queried (final (simpleCache.Get Query t t' key s1))
          = queried s ++ [key; key]).
Proof.
  intros Httl Hst HQ Hl. eexists. split; [|split].
  - rewrite (Get_stale _ _ _ _ _ Hst).
    eapply fetchAndStore_positive_ttl; eassumption.
  - intros t t' Ht. unfold simpleCache.Get, bind. simpl.
    rewrite lookup_insert_eq. simpl. rewrite lookup_insert_eq.
    replace (Expired _ t) with false; [reflexivity|].
    symmetry. apply Expired_false_iff. simpl. lia.
  - intros t t' Ht Hz.
    rewrite Get_stale.
    + rewrite (proj2 (proj2 (fetchAndStore_frame _ _ _ _))). simpl.
      rewrite <- app_assoc. reflexivity.
    + unfold stale. simpl. rewrite !lookup_insert_eq.
      apply Expired_true_iff. simpl. lia.
Qed.

Lemma fetched_entry_served_until_ttl_witness :
  exists s1,
    simpleCache.Get mockAdapter 5 6 testKey (New tt testHeap 1000)
    = Ret (Some testElem, None) s1
    /\ simpleCache.Get mockAdapter 1006 1007 testKey s1
       = Ret (Some testElem, None) s1.
Proof.
  destruct (fetched_entry_served_until_ttl mockAdapter 5 6 testKey
              (New tt testHeap 1000) testElem tt testHeap
              (mkItem (str_any "hey oh") 0))
    as (s1 & H1 & H2 & _);
    [simpl; lia | reflexivity | reflexivity | reflexivity |].
  exists s1. split; [exact H1|]. apply H2. simpl. lia.
Defined.

(** X7: items are shared, not copied.  When the adapter answers a
    fetch for [k2] with the pointer that is already stored under another
    key [k1], the fetch restamps that one item: the entry of [k1] now
    expires at [now' + ttl] as well, though [k1] was not asked for. *)
Theorem fetch_restamps_shared_item {A : Type} (Query : Adapter A)
    (now now' : Time) (k1 k2 : string) (s : state A)
    (l : loc) (a' : A) (h' : gmap loc Item) (it : Item) :
  0 < ttl s ->
  k1 <> k2 ->
  entries s !! k1 = Some (ptr_any (Some l)) ->
  stale s now k2 = true ->
  Query k2 (store s) (heap s) = (ptr_any (Some l), None, a', h') ->
  h' !! l = Some it ->
  exists s1,
    simpleCache.Get Query now now' k2 s = Ret (Some l, None) s1
    /\ entries s1 !! k1 = Some (ptr_any (Some l))
    /\ entries s1 !! k2 = Some (ptr_any (Some l))
    /\ heap s1 !! l = Some (mkItem (Value it) (now' + ttl s)).
Proof.
  intros Httl Hne Hk1 Hst HQ Hl. eexists. split; [|split; [|split]].
  - rewrite (Get_stale _ _ _ _ _ Hst).
    eapply fetchAndStore_positive_ttl; eassumption.
  - simpl. rewrite lookup_insert_ne by congruence. exact Hk1.
  - simpl. apply lookup_insert_eq.
  - simpl. apply lookup_insert_eq.
Qed.

Lemma fetch_restamps_shared_item_witness :
  exists s1,
    simpleCache.Get mockAdapter 500 501 "other" afterFirstGet
    = Ret (Some testElem, None) s1
    /\ entries s1 !! testKey = Some (ptr_any (Some testElem))
    /\ heap s1 !! testElem = Some (mkItem (str_any "hey oh") 1501).
Proof.
  destruct (fetch_restamps_shared_item mockAdapter 500 501 testKey "other"
              afterFirstGet testElem tt (heap afterFirstGet)
              (mkItem (str_any "hey oh") 1006))
    as (s1 & H1 & H2 & _ & H3);
    [simpl; lia | discriminate | reflexivity | reflexivity | reflexivity
    | reflexivity |].
  exists s1. repeat split; assumption.
Defined.

(** X8: on a handle whose TTL is not positive, an entry fetched from an
    adapter that left the expiration unset is served by every later
    [Get], at any instant, without asking the adapter again. *)
Theorem zero_ttl_entry_served_forever {A : Type} (Query : Adapter A)
    (now now' : Time) (key : string) (s : state A)
    (l : loc) (a' : A) (h' : gmap loc Item) (it : Item) :
  ttl s <= 0 ->
  stale s now key = true ->
  Query key (store s) (heap s) = (ptr_any (Some l), None, a', h') ->
  h' !! l = Some it ->
  Expiration it = 0 ->
  exists s1,
    simpleCache.Get Query now now' key s = Ret (Some l, None) s1
    /\ forall t t', simpleCache.Get Query t t' key s1 = Ret (Some l, None) s1.
Proof.
  intros Httl Hst HQ Hl Hz. eexists. split.
  - rewrite (Get_stale _ _ _ _ _ Hst).
    eapply fetchAndStore_no_ttl; eassumption.
  - intros t t'. unfold simpleCache.Get, bind. simpl.
    rewrite lookup_insert_eq. simpl. rewrite Hl.
    replace (Expired it t) with false; [reflexivity|].
    symmetry. apply Expired_false_iff. left. exact Hz.
Qed.

Lemma zero_ttl_entry_served_forever_witness :
  exists s1,
    simpleCache.Get mockAdapter 5 6 testKey (New tt testHeap 0)
    = Ret (Some testElem, None) s1
    /\ simpleCache.Get mockAdapter 999999 1000000 testKey s1
       = Ret (Some testElem, None) s1.
Proof.
  destruct (zero_ttl_entry_served_forever mockAdapter 5 6 testKey
              (New tt testHeap 0) testElem tt testHeap
              (mkItem (str_any "hey oh") 0))
    as (s1 & H1 & H2);
    [simpl; lia | reflexivity | reflexivity | reflexivity | reflexivity |].
  exists s1. split; [exact H1|apply H2].
Defined.

(** ** Nil items *)

(** X9: a nil [*Item] from the adapter poisons the key when the TTL is
    not positive.  The fetching [Get] returns the nil pointer with the
    nil error and stores it; from then on every [Get] of the key panics
    on the nil dereference in [Expired], before any query. *)
Theorem nil_item_poisons_key {A : Type} (Query : Adapter A)
    (now now' : Time) (key : string) (s : state A)
    (a' : A) (h' : gmap loc Item) :
  ttl s <= 0 ->
  stale s now key = true ->
  Query key (store s) (heap s) = (ptr_any None, None, a', h') ->
  exists s1,
    simpleCache.Get Query now now' key s = Ret (None, None) s1
    /\ entries s1 !! key = Some (ptr_any None)
    /\ forall t t',
         simpleCache.Get Query t t' key s1 = Panic NilDereference s1.
Proof.
  intros Httl Hst HQ. eexists. split; [|split].
  - rewrite (Get_stale _ _ _ _ _ Hst).
    eapply fetchAndStore_no_ttl; eassumption.
  - simpl. apply lookup_insert_eq.
  - intros t t'. unfold simpleCache.Get, bind. simpl.
    rewrite lookup_insert_eq. reflexivity.
Qed.

Lemma nil_item_poisons_key_witness :
  exists s1,
    simpleCache.Get (fun _ a h => (ptr_any None, None, a, h)) 5 6 testKey
      (New tt ∅ 0) = Ret (None, None) s1
    /\ simpleCache.Get (fun _ a h => (ptr_any None, None, a, h)) 7 8 testKey s1
       = Panic NilDereference s1.
Proof.
  destruct (nil_item_poisons_key (fun _ a h => (ptr_any None, None, a, h))
              5 6 testKey (New tt ∅ 0) tt ∅)
    as (s1 & H1 & _ & H2); [simpl; lia | reflexivity | reflexivity |].
  exists s1. split; [exact H1|apply H2].
Defined.

(** X10: with a positive TTL a nil [*Item] is never stored.  [Set]
    panics on the nil dereference and leaves the state as it was; a
    [Get] whose query answered nil panics the same way, after the one
    query, with [entries] unchanged. *)
Theorem nil_item_with_ttl_panics {A : Type} (Query : Adapter A)
    (now now' : Time) (key : string) (s : state A)
    (a' : A) (h' : gmap loc Item) :
  0 < ttl s ->
  stale s now key = true ->
  Query key (store s) (heap s) = (ptr_any None, None, a', h') ->
  simpleCache.Set_ now' key None s = Panic NilDereference s
  /\ simpleCache.Get Query now now' key s
     = Panic NilDereference
         (mkState (ttl s) (entries s) h' a' (queried s ++ [key])).
Proof.
  intros Httl Hst HQ.
  assert (Hlt : (0 <? ttl s) = true) by (apply Z.ltb_lt; exact Httl).
  split.
  - unfold simpleCache.Set_, bind, storeExpiration. rewrite Hlt. reflexivity.
  - rewrite (Get_stale _ _ _ _ _ Hst).
    unfold simpleCache.fetchAndStore, callQuery, bind. rewrite HQ. simpl.
    unfold simpleCache.Set_, bind, storeExpiration. simpl. rewrite Hlt.
    reflexivity.
Qed.

Lemma nil_item_with_ttl_panics_witness :
  simpleCache.Get (fun _ a h => (ptr_any None, None, a, h)) 5 6 testKey
    (New tt ∅ 1000)
  = Panic NilDereference (mkState 1000 ∅ ∅ tt [testKey]).
Proof.
  destruct (nil_item_with_ttl_panics (fun _ a h => (ptr_any None, None, a, h))
              5 6 testKey (New tt ∅ 1000) tt ∅)
    as [_ H]; [simpl; lia | reflexivity | reflexivity | exact H].
Defined.

(** ** The variants, one caller at a time *)

(** X11: in the coalescing [Get] the closing assertion [value.( *Item )]
    cannot fail.  Whatever the function handed to [Do] returns is a
    [*Item] inside the interface, the nil pointer of the error path
    included, so [Get] returns exactly when that function returns and
    panics exactly when it panics. *)
Theorem coalesced_assertion_never_fails {A : Type} (Query : Adapter A)
    (now now' : Time) (key : string) (s : state A) :
  match coalescedCache.lookup Query now now' key s with
  | Ret (v, e) s' =>
      exists p, v = ptr_any p
        /\ coalescedCache.Get Query now now' key s = Ret (p, e) s'
  | Panic q s' => coalescedCache.Get Query now now' key s = Panic q s'
  end.
Proof.
  unfold coalescedCache.Get, singleflight.Do, coalescedCache.lookup, bind.
  destruct (entries s !! key) as [v|].
  - destruct v as [| | |p]; simpl; try reflexivity.
    destruct (load p s) as [it s1|q s1]; [|reflexivity].
    destruct (Expired it now); simpl.
    + destruct (coalescedCache.fetchAndStore Query now' key s1)
        as [[p' e'] s2|q s2]; simpl; [|reflexivity].
      exists p'. split; reflexivity.
    + exists p. split; reflexivity.
  - destruct (coalescedCache.fetchAndStore Query now' key s)
      as [[p' e'] s2|q s2]; simpl; [|reflexivity].
    exists p'. split; reflexivity.
Qed.

(** X12: for one caller at a time the coalescing [Get] returns
    exactly when the unsynchronized [Get] returns, with the same
    pointer, the same error and the same state; and it panics exactly
    when the unsynchronized [Get] panics. *)
Theorem coalesced_Get_returns_as_simple {A : Type} (Query : Adapter A)
    (now now' : Time) (key : string) (s : state A) :
  (forall r s',
     coalescedCache.Get Query now now' key s = Ret r s'
     <-> simpleCache.Get Query now now' key s = Ret r s')
  /\ ((exists p s', coalescedCache.Get Query now now' key s = Panic p s')
      <-> (exists p s', simpleCache.Get Query now now' key s = Panic p s')).
Proof.
  rewrite coalesced_Get_alone. split; [intros r s'|]; reflexivity.
Qed.

(** ** The lock table *)

Section LockTable.

Context {A : Type}.

Lemma getLock_spec key (s : lockedState A) :
  (exists m, locks s !! key = Some m /\ lockedCache.getLock key s = (m, s))
  \/ (locks s !! key = None
      /\ lockedCache.getLock key s
         = (fresh (dom (mutexes s)),
            mkLocked (base s) (<[key := fresh (dom (mutexes s))]> (locks s))
              (<[fresh (dom (mutexes s)) := false]> (mutexes s)))).
Proof.
  unfold lockedCache.getLock. destruct (locks s !! key) as [m|].
  - left. exists m. split; reflexivity.
  - right. split; reflexivity.
Qed.

Lemma fresh_mutex_unallocated (ms : gmap loc bool) :
  ms !! fresh (dom ms) = None.
Proof. apply not_elem_of_dom. apply is_fresh. Qed.

Lemma getLock_idle key (s : lockedState A) :
  locks_idle s -> locks_idle (snd (lockedCache.getLock key s)).
Proof.
  intros [Hfree Hinj].
  destruct (getLock_spec key s) as [(m & Hk & ->)|[Hk ->]]; [split; assumption|].
  pose proof (fresh_mutex_unallocated (mutexes s)) as Hnew.
  unfold locks_idle. simpl. split.
  - intros k m. destruct (decide (k = key)) as [->|Hne].
    + rewrite lookup_insert_eq. intros [= <-]. apply lookup_insert_eq.
    + rewrite lookup_insert_ne by congruence. intros Hm.
      pose proof (Hfree _ _ Hm) as Hm'.
      rewrite lookup_insert_ne; [exact Hm'|]. intros <-. congruence.
  - intros k1 k2 m.
    destruct (decide (k1 = key)) as [->|H1], (decide (k2 = key)) as [->|H2];
      try reflexivity.
    + rewrite lookup_insert_eq, lookup_insert_ne by congruence.
      intros [= <-] Hm. apply Hfree in Hm. congruence.
    + rewrite lookup_insert_eq, lookup_insert_ne by congruence.
      intros Hm [= <-]. apply Hfree in Hm. congruence.
    + rewrite !lookup_insert_ne by congruence. apply Hinj.
Qed.

Lemma getLock_lookup key (s : lockedState A) :
  locks (snd (lockedCache.getLock key s)) !! key
  = Some (fst (lockedCache.getLock key s)).
Proof.
  destruct (getLock_spec key s) as [(m & Hk & ->)|[Hk ->]]; simpl.
  - exact Hk.
  - apply lookup_insert_eq.
Qed.

Lemma getLock_keeps key (s : lockedState A) k m :
  locks s !! k = Some m ->
  locks (snd (lockedCache.getLock key s)) !! k = Some m.
Proof.
  intros Hm.
  destruct (getLock_spec key s) as [(m0 & Hk & ->)|[Hk ->]]; simpl.
  - exact Hm.
  - rewrite lookup_insert_ne; [exact Hm|]. intros <-. congruence.
Qed.

End LockTable.

(** X13: [getLock] creates a mutex only for a key that has none, and
    then reuses it: the table holds the mutex it returns, a second call
    for the key returns the same mutex and changes nothing, the mutex of
    every other key stays in place, and the cache's entries and items
    are not touched. *)
Theorem getLock_creates_once {A : Type} (key : string) (s : lockedState A) :
  locks (snd (lockedCache.getLock key s)) !! key
  = Some (fst (lockedCache.getLock key s))
  /\ lockedCache.getLock key (snd (lockedCache.getLock key s))
     = lockedCache.getLock key s
  /\ (forall k m, locks s !! k = Some m ->
        locks (snd (lockedCache.getLock key s)) !! k = Some m)
  /\ base (snd (lockedCache.getLock key s)) = base s.
Proof.
  split; [apply getLock_lookup|]. split; [|split].
  - pose proof (getLock_lookup key s) as H.
    destruct (lockedCache.getLock key s) as [m s1]. simpl in *.
    unfold lockedCache.getLock. rewrite H. reflexivity.
  - intros k m. apply getLock_keeps.
  - destruct (getLock_spec key s) as [(m & _ & ->)|[_ ->]]; reflexivity.
Qed.

(** X14: on a lock table whose mutexes are allocated, free and not
    shared, two different keys get two different mutexes, and the table
    is again of that kind. *)
Theorem getLock_distinct_keys {A : Type} (k1 k2 : string) (s : lockedState A) :
  locks_idle s ->
  k1 <> k2 ->
  fst (lockedCache.getLock k1 s)
  <> fst (lockedCache.getLock k2 (snd (lockedCache.getLock k1 s)))
  /\ locks_idle (snd (lockedCache.getLock k2 (snd (lockedCache.getLock k1 s)))).
Proof.
  intros Hidle Hne.
  pose proof (getLock_idle k1 s Hidle) as H1.
  pose proof (getLock_idle k2 _ H1) as H2. split; [|exact H2].
  intros Heq. apply Hne. destruct H2 as [_ Hinj].
  apply (Hinj k1 k2 (fst (lockedCache.getLock k1 s))).
  - apply getLock_keeps, getLock_lookup.
  - rewrite Heq. apply getLock_lookup.
Qed.

Lemma getLock_distinct_keys_witness :
  fst (lockedCache.getLock "a" (NewLocked tt testHeap 1000))
  <> fst (lockedCache.getLock "b"
            (snd (lockedCache.getLock "a" (NewLocked tt testHeap 1000)))).
Proof.
  destruct (getLock_distinct_keys "a" "b" (NewLocked tt testHeap 1000))
    as [H _]; [|discriminate|exact H].
  split; intros ? ?; simpl; rewrite ?lookup_empty; intros; discriminate.
Defined.

(** ** Get under the lock *)

Section LockedGet.

Context {A : Type}.
Variable Query : Adapter A.

Lemma getHeld_simple now now' key (s : state A) :
  lockedCache.getHeld Query now now' key s
  = simpleCache.Get Query now now' key s.
Proof. reflexivity. Qed.

Lemma getLock_base key (s : lockedState A) :
  base (snd (lockedCache.getLock key s)) = base s.
Proof. destruct (getLock_spec key s) as [(m & _ & ->)|[_ ->]]; reflexivity. Qed.

(** With its mutex free, [Get] takes it, runs, and gives it back. *)
Lemma Get_with_free_mutex now now' key (s : lockedState A) :
  mutexes (snd (lockedCache.getLock key s)) !! fst (lockedCache.getLock key s)
  = Some false ->
  lockedCache.Get Query now now' key s
  = match simpleCache.Get Query now now' key (base s) with
    | Ret r c =>
        Returned r (mkLocked c (locks (snd (lockedCache.getLock key s)))
                      (mutexes (snd (lockedCache.getLock key s))))
    | Panic p c =>
        Panicked p (mkLocked c (locks (snd (lockedCache.getLock key s)))
                      (mutexes (snd (lockedCache.getLock key s))))
    end.
Proof.
  intros Hfree. unfold lockedCache.Get.
  pose proof (getLock_base key s) as Hbase.
  destruct (lockedCache.getLock key s) as [m s1]. simpl in *.
  unfold Mutex.Lock. rewrite Hfree. simpl.
  rewrite getHeld_simple, Hbase.
  destruct (simpleCache.Get Query now now' key (base s)) as [r c|p c];
    unfold Mutex.Unlock; simpl; rewrite lookup_insert_eq, insert_insert_eq,
      (insert_id _ _ _ Hfree); reflexivity.
Qed.

Lemma Get_on_idle_locks now now' key (s : lockedState A) :
  locks_idle s ->
  lockedCache.Get Query now now' key s
  = match simpleCache.Get Query now now' key (base s) with
    | Ret r c =>
        Returned r (mkLocked c (locks (snd (lockedCache.getLock key s)))
                      (mutexes (snd (lockedCache.getLock key s))))
    | Panic p c =>
        Panicked p (mkLocked c (locks (snd (lockedCache.getLock key s)))
                      (mutexes (snd (lockedCache.getLock key s))))
    end.
Proof.
  intros Hidle. apply Get_with_free_mutex.
  destruct (getLock_idle key s Hidle) as [Hfree _].
  apply (Hfree key). apply getLock_lookup.
Qed.

Lemma Get_keeps_idle now now' key (s : lockedState A) :
  locks_idle s ->
  locks_idle (finalLocked (lockedCache.Get Query now now' key s)).
Proof.
  intros Hidle. rewrite (Get_on_idle_locks _ _ _ _ Hidle).
  pose proof (getLock_idle key s Hidle) as H.
  destruct (simpleCache.Get Query now now' key (base s)); exact H.
Qed.

Lemma Get_locks now now' key (s : lockedState A) :
  locks (finalLocked (lockedCache.Get Query now now' key s))
  = locks (snd (lockedCache.getLock key s)).
Proof.
  unfold lockedCache.Get.
  destruct (lockedCache.getLock key s) as [m s1]. simpl.
  unfold Mutex.Lock. destruct (mutexes s1 !! m) as [[|]|]; try reflexivity.
  simpl. destruct (lockedCache.getHeld Query now now' key (base s1));
    unfold Mutex.Unlock; simpl; rewrite lookup_insert_eq; reflexivity.
Qed.

End LockedGet.

Lemma NewLocked_idle {A : Type} (a : A) (h : gmap loc Item) (d : Duration) :
  locks_idle (NewLocked a h d).
Proof. split; intros ? ?; simpl; rewrite ?lookup_empty; intros; discriminate. Qed.

(** X15: on a lock table whose mutexes are free, the locked [Get]
    returns or panics exactly as the unsynchronized [Get] does on the
    same entries, items and adapter, and the lock table it leaves is the
    one [getLock] made: the mutex has been released, on the panic path
    as on the return path. *)
Theorem locked_Get_as_simple {A : Type} (Query : Adapter A)
    (now now' : Time) (key : string) (s : lockedState A) :
  locks_idle s ->
  lockedCache.Get Query now now' key s
  = match simpleCache.Get Query now now' key (base s) with
    | Ret r c =>
        Returned r (mkLocked c (locks (snd (lockedCache.getLock key s)))
                      (mutexes (snd (lockedCache.getLock key s))))
    | Panic p c =>
        Panicked p (mkLocked c (locks (snd (lockedCache.getLock key s)))
                      (mutexes (snd (lockedCache.getLock key s))))
    end.
Proof. apply Get_on_idle_locks. Qed.

Lemma locked_Get_as_simple_witness :
  lockedCache.Get mockAdapter 5 6 testKey (NewLocked tt testHeap 1000)
  = Returned (Some testElem, None)
      (mkLocked afterFirstGet {[ testKey := 1%positive ]}
         {[ 1%positive := false ]}).
Proof.
  rewrite (locked_Get_as_simple mockAdapter 5 6 testKey
             (NewLocked tt testHeap 1000) (NewLocked_idle tt testHeap 1000)).
  vm_compute. reflexivity.
Defined.

(** X16: when the mutex of the key is held, [Get] waits: nothing is
    read or written, the adapter is not asked, no lock is added. *)
Theorem locked_Get_waits_on_held_mutex {A : Type} (Query : Adapter A)
    (now now' : Time) (key : string) (m : loc) (s : lockedState A) :
  locks s !! key = Some m ->
  mutexes s !! m = Some true ->
  lockedCache.Get Query now now' key s = Blocked s.
Proof.
  intros Hk Hm. unfold lockedCache.Get, lockedCache.getLock. rewrite Hk.
  unfold Mutex.Lock. rewrite Hm. reflexivity.
Qed.

Lemma locked_Get_waits_on_held_mutex_witness :
  lockedCache.Get mockAdapter 5 6 testKey
    (mkLocked (New tt testHeap 1000) {[ testKey := 1%positive ]}
       {[ 1%positive := true ]})
  = Blocked (mkLocked (New tt testHeap 1000) {[ testKey := 1%positive ]}
               {[ 1%positive := true ]}).
Proof.
  apply (locked_Get_waits_on_held_mutex mockAdapter 5 6 testKey 1%positive);
    reflexivity.
Defined.

(** X17: [Get] never unlocks a mutex that is not held: on no state, at
    no instant and for no adapter does it end in the fatal error of
    [Unlock]. *)
Theorem locked_Get_never_fatal {A : Type} (Query : Adapter A)
    (now now' : Time) (key : string) (s s' : lockedState A) :
  lockedCache.Get Query now now' key s <> Fatal s'.
Proof.
  unfold lockedCache.Get.
  destruct (lockedCache.getLock key s) as [m s1].
  unfold Mutex.Lock. destruct (mutexes s1 !! m) as [[|]|]; try discriminate.
  simpl. destruct (lockedCache.getHeld Query now now' key (base s1));
    unfold Mutex.Unlock; simpl; rewrite lookup_insert_eq; discriminate.
Qed.

(** X18: the lock table only grows.  However [Get] ends, waiting
    included, the table afterwards has the keys it had and the requested
    key, and every key that had a mutex still has that same mutex. *)
Theorem lock_table_only_grows {A : Type} (Query : Adapter A)
    (now now' : Time) (key : string) (s : lockedState A) :
  dom (locks (finalLocked (lockedCache.Get Query now now' key s)))
  = dom (locks s) ∪ {[ key ]}
  /\ forall k m, locks s !! k = Some m ->
       locks (finalLocked (lockedCache.Get Query now now' key s)) !! k = Some m.
Proof.
  rewrite Get_locks. split; [|intros k m; apply getLock_keeps].
  destruct (getLock_spec key s) as [(m & Hk & ->)|[Hk ->]]; simpl.
  - rewrite <- (insert_id _ _ _ Hk) at 1. rewrite dom_insert_L.
    apply (comm_L _).
  - rewrite dom_insert_L. apply (comm_L _).
Qed.

(** X19: a handle built by [NewLockedCache] and used by one caller at a
    time keeps its lock table idle, so none of its [Get] calls waits:
    each one returns or panics. *)
Theorem sequential_locked_Get_never_waits {A : Type} (Query : Adapter A)
    (now now' : Time) (key : string) (s : lockedState A) :
  reachableLocked Query s ->
  locks_idle s
  /\ ((exists r s', lockedCache.Get Query now now' key s = Returned r s')
      \/ (exists p s', lockedCache.Get Query now now' key s = Panicked p s')).
Proof.
  intros Hreach.
  assert (Hidle : locks_idle s).
  { induction Hreach as [a h d | s0 t t' k r _ IH Hrun _].
    - apply NewLocked_idle.
    - subst r. apply Get_keeps_idle. exact IH. }
  split; [exact Hidle|]. rewrite (Get_on_idle_locks _ _ _ _ _ Hidle).
  destruct (simpleCache.Get Query now now' key (base s)) as [r c|p c];
    [left|right]; eexists _, _; reflexivity.
Qed.

Lemma sequential_locked_Get_never_waits_witness :
  (exists r s',
     lockedCache.Get mockAdapter 7 8 testKey
       (mkLocked afterFirstGet {[ testKey := 1%positive ]}
          {[ 1%positive := false ]}) = Returned r s')
  \/ (exists p s',
     lockedCache.Get mockAdapter 7 8 testKey
       (mkLocked afterFirstGet {[ testKey := 1%positive ]}
          {[ 1%positive := false ]}) = Panicked p s').
Proof.
  destruct (sequential_locked_Get_never_waits mockAdapter 7 8 testKey
              (mkLocked afterFirstGet {[ testKey := 1%positive ]}
                 {[ 1%positive := false ]})) as [_ H]; [|exact H].
  apply (reachL_Get mockAdapter (NewLocked tt testHeap 1000) 5 6 testKey
           (Returned (Some testElem, None)
              (mkLocked afterFirstGet {[ testKey := 1%positive ]}
                 {[ 1%positive := false ]}))).
  - apply reachL_New.
  - vm_compute. reflexivity.
  - intros s'. discriminate.
Defined.

(** ** What Get promises about the entries *)

Section Outcome.

Context {A : Type}.
Variable Query : Adapter A.

Lemma fetchAndStore_outcome now key (s : state A) :
  match simpleCache.fetchAndStore Query now key s with
  | Ret (p, None) s' => entries s' !! key = Some (ptr_any p)
  | Ret (p, Some _) s' => p = None /\ entries s' = entries s
  | Panic _ s' => entries s' = entries s
  end.
Proof.
  unfold simpleCache.fetchAndStore, callQuery, bind.
  destruct (Query key (store s) (heap s)) as [[[v e] a'] h']. simpl.
  destruct e as [e|]; [split; reflexivity|].
  destruct v as [| | |item]; simpl; try reflexivity.
  unfold simpleCache.Set_, bind, storeExpiration, storeEntry. simpl.
  destruct (0 <? ttl s).
  - destruct item as [l|]; simpl; [|reflexivity].
    destruct (h' !! l) as [it|]; simpl; [|reflexivity].
    apply lookup_insert_eq.
  - simpl. apply lookup_insert_eq.
Qed.

Lemma Value_stamp (h : gmap loc Item) (l : loc) (it : Item) (t : Time) :
  h !! l = Some it ->
  Value <$> <[l := mkItem (Value it) t]> h = Value <$> h.
Proof.
  intros Hl. rewrite fmap_insert. simpl. apply insert_id.
  rewrite lookup_fmap, Hl. reflexivity.
Qed.

Lemma fetchAndStore_items now key (s : state A) v e a' :
  Query key (store s) (heap s) = (v, e, a', heap s) ->
  Value <$> heap (final (simpleCache.fetchAndStore Query now key s))
  = Value <$> heap s
  /\ (ttl s <= 0 ->
      heap (final (simpleCache.fetchAndStore Query now key s)) = heap s).
Proof.
  intros HQ. unfold simpleCache.fetchAndStore, callQuery, bind.
  rewrite HQ. simpl.
  destruct e as [e|]; [split; reflexivity|].
  destruct v as [| | |item]; simpl; try (split; reflexivity).
  unfold simpleCache.Set_, bind, storeExpiration, storeEntry. simpl.
  destruct (Z.ltb_spec 0 (ttl s)) as [Hpos|Hnon].
  - destruct item as [l|]; simpl; [|split; [reflexivity|lia]].
    destruct (heap s !! l) as [it|] eqn:Hl; simpl; [|split; [reflexivity|lia]].
    split; [apply Value_stamp; exact Hl|lia].
  - simpl. split; reflexivity.
Qed.

End Outcome.

(** X20: what [Get] leaves under its key, on every state.  When it
    returns with the nil error, the pointer it returns is the one now
    stored under the key.  When it returns an error, the pointer is nil
    and no entry has changed.  When it panics, no entry has changed. *)
Theorem Get_outcome {A : Type} (Query : Adapter A) (now now' : Time)
    (key : string) (s : state A) :
  match simpleCache.Get Query now now' key s with
  | Ret (p, None) s' => entries s' !! key = Some (ptr_any p)
  | Ret (p, Some _) s' => p = None /\ entries s' = entries s
  | Panic _ s' => entries s' = entries s
  end.
Proof.
  pose proof (fetchAndStore_outcome Query now' key s) as Hf.
  unfold simpleCache.Get, bind.
  destruct (entries s !! key) as [v|] eqn:Hk; [|exact Hf].
  destruct v as [| | |[l|]]; simpl; try reflexivity.
  destruct (heap s !! l) as [it|]; simpl; [|reflexivity].
  destruct (Expired it now); [exact Hf|exact Hk].
Qed.

(** X21: the cache writes expirations and nothing else into items.
    When the adapter leaves the heap alone on the query [Get] would
    make, then after [Get], however it ends, the heap holds the same
    items with the same values; and on a handle whose TTL is not
    positive the heap is unchanged altogether. *)
Theorem Get_keeps_item_values {A : Type} (Query : Adapter A)
    (now now' : Time) (key : string) (s : state A)
    (v : any) (e : error) (a' : A) :
  Query key (store s) (heap s) = (v, e, a', heap s) ->
  Value <$> heap (final (simpleCache.Get Query now now' key s))
  = Value <$> heap s
  /\ (ttl s <= 0 ->
      heap (final (simpleCache.Get Query now now' key s)) = heap s).
Proof.
  intros HQ.
  pose proof (fetchAndStore_items Query now' key s v e a' HQ) as Hf.
  unfold simpleCache.Get, bind.
  destruct (entries s !! key) as [x|]; [|exact Hf].
  destruct x as [| | |[l|]]; simpl; try (split; reflexivity).
  destruct (heap s !! l) as [it|]; simpl; [|split; reflexivity].
  destruct (Expired it now); [exact Hf|split; reflexivity].
Qed.

Lemma Get_keeps_item_values_witness :
  Value <$> heap (final (simpleCache.Get mockAdapter 5 6 testKey
                           (New tt testHeap 1000)))
  = Value <$> testHeap.
Proof.
  destruct (Get_keeps_item_values mockAdapter 5 6 testKey
              (New tt testHeap 1000) (ptr_any (Some testElem)) None tt)
    as [H _]; [reflexivity | exact H].
Defined.

(** X22: on a new handle every key is cold: the first [Get], for any
    key and at any instant, asks the adapter, once. *)
Theorem first_Get_asks_adapter {A : Type} (Query : Adapter A)
    (now now' : Time) (key : string) (a : A) (h : gmap loc Item)
    (d : Duration) :
  simpleCache.Get Query now now' key (New a h d)
  = simpleCache.fetchAndStore Query now' key (New a h d)
  /\ queried (final (simpleCache.Get Query now now' key (New a h d))) = [key].
Proof.
  assert (H : simpleCache.Get Query now now' key (New a h d)
              = simpleCache.fetchAndStore Query now' key (New a h d)).
  { unfold simpleCache.Get, New. simpl. rewrite lookup_empty. reflexivity. }
  split; [exact H|]. rewrite H.
  exact (proj2 (proj2 (fetchAndStore_frame _ _ _ _))).
Qed.
